(** * hrtbeat: the huge-page memory benchmark (huge_memory_bench.cpp)

    A shallow embedding of the benchmark's index cache ([generateIndices],
    [readIndices]), of its option handling and of the two timed loops of
    [main], together with the properties of the specification that are
    about them.

    Conventions.
    - [unsigned long] and [long] are 64 bits wide (LP64 Linux, the only
      platform that has the [MAP_HUGETLB] interface the program uses); they
      are integers of [Z] with the wrap-around written out.
    - A file is the list of its characters.
    - [double] is IEEE 754 binary64, modelled with the axiom-free
      [SpecFloat] operations at precision 53 and maximal exponent 1024.
    - Allocations are granted: [indices->reserve(numIndices)], the growth
      of the vector under [emplace_back] and the strings of the library
      do not throw.  A run in which one of them throws ([std::length_error]
      or [std::bad_alloc], which nothing catches) is not a run of the
      model.
    - A file that the program has written can be opened for reading
      afterwards. *)

From Stdlib Require Import ZArith List Ascii String Lia Bool SpecFloat.
From stdpp Require Import base list.

Local Open Scope Z_scope.

(** ** Machine integers *)

Module Word.

Definition ULONG_MODULUS : Z := 2 ^ 64.
Definition LONG_MAX : Z := 2 ^ 63 - 1.
Definition LONG_MIN : Z := - 2 ^ 63.

(** Wrap-around of [unsigned long] arithmetic; also the conversion
    [(unsigned long) x] of a [long]. *)
Definition wrap (x : Z) : Z := x mod ULONG_MODULUS.

Definition u64 (x : Z) : Prop := 0 <= x < ULONG_MODULUS.

End Word.

(** ** The C library routines the program calls *)

Module Libc.

Definition NL : ascii := "010"%char.
Definition NUL : ascii := "000"%char.

Definition code (c : ascii) : Z := Z.of_N (N_of_ascii c).

(** [isspace] in the C locale: space, and the control characters
    [\t \n \v \f \r]. *)
Definition isspace (c : ascii) : bool :=
  (code c =? 32) || ((9 <=? code c) && (code c <=? 13)).

Definition isdigit (c : ascii) : bool :=
  (48 <=? code c) && (code c <=? 57).

Definition digit_val (c : ascii) : Z := code c - 48.

Definition digit_char (d : Z) : ascii := ascii_of_N (Z.to_N (d + 48)).

(** *** [fgets(buf, size, fd)]

    Reads at most [size - 1] characters and stops after a newline, which
    it keeps.  At end of file with nothing read it returns [NULL],
    here [None].  The result pairs the buffer with the rest of the
    stream. *)
Fixpoint fgets_chars (room : nat) (stream : list ascii)
  : list ascii * list ascii :=
  match room, stream with
  | O, _ => ([], stream)
  | _, [] => ([], [])
  | S room', c :: stream' =>
      if Ascii.eqb c NL then ([c], stream')
      else let '(buf, rest) := fgets_chars room' stream' in (c :: buf, rest)
  end.

Definition fgets (size : nat) (stream : list ascii)
  : option (list ascii * list ascii) :=
  match stream with
  | [] => None
  | _ :: _ => Some (fgets_chars (size - 1) stream)
  end.

(** *** [strtol(buf, &endPtr, 10)]

    Skips white space, takes an optional sign and then the longest run
    of decimal digits.  Without a digit nothing is converted: the value
    is 0 and [endPtr] is [buf].  A value out of the range of [long] is
    clamped, with [endPtr] still after the last digit.  The second
    component is the text at [endPtr]. *)
Fixpoint skip_space (s : list ascii) : list ascii :=
  match s with
  | c :: s' => if isspace c then skip_space s' else s
  | [] => []
  end.

Fixpoint scan_digits (acc : Z) (s : list ascii) : Z * list ascii :=
  match s with
  | c :: s' =>
      if isdigit c then scan_digits (10 * acc + digit_val c) s' else (acc, s)
  | [] => (acc, [])
  end.

Definition scan_sign (s : list ascii) : bool * list ascii :=
  match s with
  | c :: s' =>
      if Ascii.eqb c "-" then (true, s')
      else if Ascii.eqb c "+" then (false, s')
      else (false, s)
  | [] => (false, [])
  end.

Definition strtol (buf : list ascii) : Z * list ascii :=
  let '(neg, s) := scan_sign (skip_space buf) in
  match s with
  | c :: _ =>
      if isdigit c then
        let '(v, rest) := scan_digits 0 s in
        (if neg then Z.max Word.LONG_MIN (- v) else Z.min Word.LONG_MAX v,
         rest)
      else (0, buf)
  | [] => (0, buf)
  end.

(** The character a [char *] points at: the terminating NUL when the
    text is exhausted. *)
Definition deref (s : list ascii) : ascii :=
  match s with
  | c :: _ => c
  | [] => NUL
  end.

(** *** [fprintf(fd, "%lu\n", idx)]: the decimal digits, at most 20 of
    them for a 64-bit value, then a newline. *)
Fixpoint print_digits (fuel : nat) (n : Z) (acc : list ascii) : list ascii :=
  match fuel with
  | O => acc
  | S fuel' =>
      let acc' := digit_char (n mod 10) :: acc in
      if n / 10 =? 0 then acc' else print_digits fuel' (n / 10) acc'
  end.

Definition print_lu (n : Z) : list ascii := print_digits 20 (Word.wrap n) [].

Definition print_lu_line (n : Z) : list ascii := print_lu n ++ [NL].

(** *** [std::uniform_int_distribution<unsigned long>(lo, hi)]

    The library promises a value of [lo .. hi] and nothing about which
    one.  The model reduces a word of the generator into the range, so
    every value of the range is the result for some word. *)
Definition uniform_int (lo hi raw : Z) : Z := lo + raw mod (hi - lo + 1).

(** *** [std::getline(ifs, str)]: the first line without its newline;
    fails on an empty stream. *)
Fixpoint until_newline (s : list ascii) : list ascii :=
  match s with
  | c :: s' => if Ascii.eqb c NL then [] else c :: until_newline s'
  | [] => []
  end.

Definition getline (s : list ascii) : option (list ascii) :=
  match s with
  | [] => None
  | _ :: _ => Some (until_newline s)
  end.

(** *** [str.find(pat) != npos] *)
Fixpoint starts_with (pat s : list ascii) : bool :=
  match pat, s with
  | [], _ => true
  | _ :: _, [] => false
  | p :: pat', c :: s' => Ascii.eqb p c && starts_with pat' s'
  end.

Fixpoint contains (pat s : list ascii) : bool :=
  starts_with pat s ||
  match s with
  | [] => false
  | _ :: s' => contains pat s'
  end.

End Libc.

Import Libc.

(** ** Double precision *)

Module Double.

Definition prec : Z := 53.
Definition emax : Z := 1024.

Definition double : Type := spec_float.

Definition zero : double := S754_zero false.
Definition add : double -> double -> double := SFadd prec emax.
Definition mul : double -> double -> double := SFmul prec emax.
Definition div : double -> double -> double := SFdiv prec emax.

(** Conversion of an integer, to the nearest double. *)
Definition of_Z (n : Z) : double := binary_normalize prec emax n 0 false.

(** A decimal literal [num / den] denotes the double nearest to it: the
    correctly rounded quotient of two integers that are doubles
    themselves.  [literal 1 (10 ^ 9)] is [1e-9], [literal 3 100] is
    [0.03]. *)
Definition literal (num den : Z) : double := div (of_Z num) (of_Z den).

(** Conversion to [unsigned long]: the fraction is dropped; a value that
    does not fit has no defined result. *)
Definition to_ulong (x : double) : option Z :=
  match x with
  | S754_zero _ => Some 0
  | S754_finite s m e =>
      let mag := if 0 <=? e then Zpos m * 2 ^ e else Zpos m / 2 ^ (- e) in
      let v := if s then - mag else mag in
      if (0 <=? v) && (v <? Word.ULONG_MODULUS) then Some v else None
  | S754_infinity _ | S754_nan => None
  end.

End Double.

(** ** What a run does that can be observed *)

(** The lines the program prints, by the statement that prints them, and
    its calls into the memory manager.  Elapsed times carry no value:
    they are not a function of the input. *)
Inductive event : Type :=
| CantOpenForWriting
| GeneratedFile
| InvalidLine (buf : list ascii)
| InvalidFileRegenerating
| UsageText
| ThpNotEnabled
| GettingIndices
| CantGetIndices
| CannotAllocate
| HugetlbHint
| MadviseFailed
| InitializingArray
| InitTook
| AddingTook
| ResultIs (result : Double.double)
| Mmap (size : Z) (hugetlb : bool) (ok : bool)
| Madvise (size : Z) (ok : bool)
| Munmap (size : Z).

(** ** The index cache *)

Module Cache.

(** The part of the machine the index cache works on: the file
    [CACHED_INDICES_FILE] ([None] when it cannot be opened for reading),
    whether it can be opened for writing, the words the freshly seeded
    generator will yield, and what the run has done so far. *)
Record World : Type := mkWorld {
  idx_file : option (list ascii);
  idx_writable : bool;
  entropy : nat -> Z;
  printed : list event
}.

Definition say (m : event) (w : World) : World :=
  mkWorld (idx_file w) (idx_writable w) (entropy w) (printed w ++ [m]).

(** The file after [fopen(..., "w")], the [fprintf]s and [fclose]: it
    holds what was written, and it can then be opened for reading. *)
Definition write_file (content : list ascii) (w : World) : World :=
  mkWorld (Some content) (idx_writable w) (entropy w) (printed w).

Definition consume (n : nat) (w : World) : World :=
  mkWorld (idx_file w) (idx_writable w) (fun k => entropy w (n + k)%nat)
          (printed w).

(** The body of the [for] loop of [generateIndices], [todo] iterations
    from the [k]-th word of the generator on; [fd] is the text written to
    the file so far. *)
Fixpoint generate_loop (todo : nat) (k : nat) (endIdx : Z) (rng : nat -> Z)
    (fd : list ascii) (indices : list Z) : list ascii * list Z :=
  match todo with
  | O => (fd, indices)
  | S todo' =>
      let idx := uniform_int 0 (Word.wrap (endIdx - 1)) (rng k) in
      generate_loop todo' (S k) endIdx rng
                    (fd ++ print_lu_line idx) (indices ++ [idx])
  end.

(** [generateIndices]: opening for writing truncates the file. *)
Definition generateIndices (indices : list Z) (endIdx numIndices : Z)
    (w : World) : bool * list Z * World :=
  if idx_writable w then
    let '(fd, indices') :=
      generate_loop (Z.to_nat numIndices) 0 endIdx (entropy w) [] indices in
    (true, indices',
     say GeneratedFile (write_file fd (consume (Z.to_nat numIndices) w)))
  else (false, indices, say CantOpenForWriting w).

(** The state of the [while] loop of [readIndices]. *)
Record reading : Type := mkReading {
  rd_indices : list Z;
  rd_maxIdx : Z;
  rd_printed : list event
}.

(** The validity test of a line, on the results of [strtol]. *)
Definition invalid_line (idx : Z) (endPtr : list ascii) (endIdx : Z) : bool :=
  (negb (Ascii.eqb (deref endPtr) NL) && negb (Ascii.eqb (deref endPtr) NUL))
  || (idx <? 0)
  || (endIdx <=? Word.wrap idx).

(** The [while (fgets(buf, sizeof(buf), fd))] loop.  Every [fgets] that
    succeeds takes at least one character of the stream, so the length of
    the stream is fuel enough ([read_loop_fuel] below). *)
Fixpoint read_loop (fuel : nat) (endIdx numIndices : Z) (stream : list ascii)
    (st : reading) : reading :=
  match fuel with
  | O => st
  | S fuel' =>
      match fgets 128 stream with
      | None => st
      | Some (buf, rest) =>
          let '(idx, endPtr) := strtol buf in
          if invalid_line idx endPtr endIdx then
            mkReading (rd_indices st) (rd_maxIdx st)
                      (rd_printed st ++ [InvalidLine buf])
          else
            let indices' := rd_indices st ++ [Word.wrap idx] in
            let st' := mkReading indices'
                                 (Z.max (rd_maxIdx st) (Word.wrap idx))
                                 (rd_printed st) in
            if numIndices <? Z.of_nat (length indices') then st'
            else read_loop fuel' endIdx numIndices rest st'
      end
  end.

(** The test after the loop: the file is for another array size, or it
    is truncated or too big. *)
Definition stale (endIdx numIndices : Z) (st : reading) : bool :=
  (10000000 <? Word.wrap (endIdx - rd_maxIdx st))
  || negb (Z.of_nat (length (rd_indices st)) =? numIndices).

Definition say_all (ms : list event) (w : World) : World :=
  mkWorld (idx_file w) (idx_writable w) (entropy w) (printed w ++ ms).

(** [readIndices], from the [fopen] on.  The reservation before it
    changes no value; it is taken to be granted. *)
Definition readIndices (indices : list Z) (endIdx numIndices : Z)
    (w : World) : bool * list Z * World :=
  match idx_file w with
  | None => generateIndices indices endIdx numIndices w
  | Some stream =>
      let st := read_loop (length stream) endIdx numIndices stream
                          (mkReading indices 0 []) in
      let w' := say_all (rd_printed st) w in
      if stale endIdx numIndices st then
        generateIndices [] endIdx numIndices (say InvalidFileRegenerating w')
      else (true, rd_indices st, w')
  end.

End Cache.

Import Cache.

(** ** The benchmark: [main] *)

Module Bench.

(** The successive answers of [getopt(argc, argv, "hmts:")].  For [-s]
    the answer carries what [strtoul(optarg, &endPtr, 0)] makes of the
    argument: the number, and whether text is left at [endPtr]. *)
Inductive option_char : Type :=
| OptH
| OptM
| OptT
| OptS (num : N) (trailing : bool)
| OptUnknown.

(** The command line as [getopt] sees it; [operands] is
    [optind != argc]. *)
Record Args : Type := mkArgs {
  opts : list option_char;
  operands : bool
}.

(** What the kernel answers: the text of
    [/sys/kernel/mm/transparent_hugepage/enabled] ([None] when it cannot
    be opened), whether [mmap] of a size succeeds, with or without
    [MAP_HUGETLB], and whether [madvise] succeeds. *)
Record Env : Type := mkEnv {
  thp_file : option (list ascii);
  mmap_succeeds : Z -> bool -> bool;
  madvise_succeeds : bool
}.

(** A step of the program goes on with a value, leaves the process with
    a status ([return] from [main], or [exit]), or has no defined
    behaviour. *)
Inductive outcome (A : Type) : Type :=
| Next (a : A)
| Exit (status : Z)
| Undefined.

Arguments Next {A} a.
Arguments Exit {A} status.
Arguments Undefined {A}.

Definition Prog (A : Type) : Type := World -> outcome A * World.

Definition ret {A : Type} (a : A) : Prog A := fun w => (Next a, w).

Definition bind {A B : Type} (p : Prog A) (k : A -> Prog B) : Prog B :=
  fun w =>
    match p w with
    | (Next a, w') => k a w'
    | (Exit status, w') => (Exit status, w')
    | (Undefined, w') => (Undefined, w')
    end.

Notation "x <- p ;; k" := (bind p (fun x => k))
  (at level 100, p at next level, right associativity).
Notation "p ;; k" := (bind p (fun _ => k))
  (at level 100, right associativity).

Definition emit (e : event) : Prog unit := fun w => (Next tt, say e w).
Definition exit {A : Type} (status : Z) : Prog A := fun w => (Exit status, w).
Definition lift {A : Type} (o : option A) : Prog A :=
  fun w => match o with Some a => (Next a, w) | None => (Undefined, w) end.

Definition usage {A : Type} : Prog A := emit UsageText ;; exit 1.

Record config : Type := mkConfig {
  arraySize : Z;
  endIdx : Z;
  hugetlb : bool;
  thp : bool
}.

Definition sizeof_double : Z := 8.

Definition initial_config : config :=
  let arraySize := Word.wrap (32 * 1024 * 1024 * 1024) in
  mkConfig arraySize (arraySize / sizeof_double) false false.

(** The test of [case 'm']: the file opens, has a first line, and the
    line does not say [[never]]. *)
Definition thp_state_enabled (env : Env) : bool :=
  match thp_file env with
  | Some ifs =>
      match getline ifs with
      | Some str => negb (contains (list_ascii_of_string "[never]") str)
      | None => false
      end
  | None => false
  end.

(** The body of the [switch]. *)
Definition handle_option (env : Env) (opt : option_char) (c : config)
  : Prog config :=
  match opt with
  | OptH => usage
  | OptT => ret (mkConfig (arraySize c) (endIdx c) true (thp c))
  | OptM =>
      if thp_state_enabled env then
        ret (mkConfig (arraySize c) (endIdx c) (hugetlb c) true)
      else emit ThpNotEnabled ;; exit 1
  | OptS num trailing =>
      if trailing || (128 <? Z.of_N num) then usage
      else
        let arraySize := Word.wrap (Z.of_N num * 1024 * 1024 * 1024) in
        ret (mkConfig arraySize (arraySize / sizeof_double)
                      (hugetlb c) (thp c))
  | OptUnknown => usage
  end.

Fixpoint getopt_loop (env : Env) (os : list option_char) (c : config)
  : Prog config :=
  match os with
  | [] => ret c
  | opt :: os' => c' <- handle_option env opt c ;; getopt_loop env os' c'
  end.

(** [unsigned long numIndices = endIdx * 0.03;] *)
Definition requested_count (endIdx : Z) : option Z :=
  Double.to_ulong (Double.mul (Double.of_Z endIdx) (Double.literal 3 100)).

(** [1e-9 * double(i % 79)] *)
Definition init_value (i : Z) : Double.double :=
  Double.mul (Double.literal 1 (10 ^ 9)) (Double.of_Z (i mod 79)).

(** The initialization loop, [todo] iterations from index [i] on, with
    the indices stored to, in order.  A store outside the array has no
    defined behaviour. *)
Fixpoint init_loop (todo : nat) (i : Z) (array : list Double.double)
    (stored : list Z) : option (list Double.double * list Z) :=
  match todo with
  | O => Some (array, stored)
  | S todo' =>
      if Nat.ltb (Z.to_nat i) (length array) then
        init_loop todo' (i + 1) (<[Z.to_nat i := init_value i]> array)
                  (stored ++ [i])
      else None
  end.

(** [for (unsigned long u : indices) result += array[u];] *)
Fixpoint access_loop (indices : list Z) (array : list Double.double)
    (result : Double.double) : option Double.double :=
  match indices with
  | [] => Some result
  | u :: indices' =>
      match array !! Z.to_nat u with
      | Some x => access_loop indices' array (Double.add result x)
      | None => None
      end
  end.

(** [mmap]: anonymous memory reads as zero; [None] is [MAP_FAILED]. *)
Definition sys_mmap (env : Env) (size : Z) (huge : bool)
  : Prog (option (list Double.double)) :=
  fun w =>
    let ok := mmap_succeeds env size huge in
    (Next (if ok
           then Some (replicate (Z.to_nat (size / sizeof_double)) Double.zero)
           else None),
     say (Mmap size huge ok) w).

(** [madvise]: the result is whether the call failed. *)
Definition sys_madvise (env : Env) (size : Z) : Prog bool :=
  fun w =>
    (Next (negb (madvise_succeeds env)),
     say (Madvise size (madvise_succeeds env)) w).

Definition sys_munmap (size : Z) : Prog unit := emit (Munmap size).

Definition call_readIndices (endIdx numIndices : Z) : Prog (bool * list Z) :=
  fun w =>
    let '(ok, indices, w') := readIndices [] endIdx numIndices w in
    (Next (ok, indices), w').

(** [main] after the options: the part that works on the array. *)
Definition benchmark (env : Env) (c : config) (indices : list Z) : Prog Z :=
  mem <- sys_mmap env (arraySize c) (hugetlb c) ;;
  match mem with
  | None =>
      emit CannotAllocate ;;
      (if hugetlb c then emit HugetlbHint else ret tt) ;;
      exit 1
  | Some array =>
      failed <- (if thp c then sys_madvise env (arraySize c) else ret false) ;;
      if failed then emit MadviseFailed ;; exit 1
      else
        emit InitializingArray ;;
        a <- lift (init_loop (Z.to_nat (endIdx c)) 0 array []) ;;
        emit InitTook ;;
        result <- lift (access_loop indices (fst a) Double.zero) ;;
        emit AddingTook ;;
        emit (ResultIs result) ;;
        sys_munmap (arraySize c) ;;
        exit 0
  end.

Definition main (env : Env) (args : Args) : Prog Z :=
  c <- getopt_loop env (opts args) initial_config ;;
  (if (hugetlb c && thp c) || operands args then usage else ret tt) ;;
  numIndices <- lift (requested_count (endIdx c)) ;;
  emit GettingIndices ;;
  r <- call_readIndices (endIdx c) numIndices ;;
  if fst r then benchmark env c (snd r)
  else emit CantGetIndices ;; exit 1.

End Bench.

Import Bench.

(** ** Vocabulary of the statements *)

Module Spec.

(** The indices a generation run draws: [n] values from the [k]-th word of
    the generator on. *)
Definition drawn (endIdx : Z) (rng : nat -> Z) (k n : nat) : list Z :=
  map (fun j => uniform_int 0 (Word.wrap (endIdx - 1)) (rng j)) (seq k n).

(** The persisted form of an index set: one decimal number per line. *)
Definition index_file (l : list Z) : list ascii :=
  concat (map print_lu_line l).

(** The running maximum of the read loop, which starts from 0. *)
Definition max_seen (m0 : Z) (l : list Z) : Z := fold_left Z.max l m0.

(** The successive buffers [fgets] cuts a stream into. *)
Fixpoint fgets_all (fuel : nat) (stream : list ascii) : list (list ascii) :=
  match fuel with
  | O => []
  | S fuel' =>
      match fgets 128 stream with
      | None => []
      | Some (buf, rest) => buf :: fgets_all fuel' rest
      end
  end.

Definition buffers (stream : list ascii) : list (list ascii) :=
  fgets_all (length stream) stream.

(** The index a buffer stands for. *)
Definition buffer_index (buf : list ascii) : Z := Word.wrap (fst (strtol buf)).

Definition buffer_invalid (endIdx : Z) (buf : list ascii) : bool :=
  invalid_line (fst (strtol buf)) (snd (strtol buf)) endIdx.

(** A load that left the file and the generator alone and printed only
    complaints about lines. *)
Definition only_read (w w' : World) : Prop :=
  exists ms,
    w' = say_all ms w
    /\ Forall (fun m => exists buf, m = InvalidLine buf) ms.

(** The array sizes the options can select: a number of GiB up to 128. *)
Definition configured (c : config) : Prop :=
  exists num,
    0 <= num <= 128
    /\ arraySize c = num * 2 ^ 30
    /\ endIdx c = num * 2 ^ 27.

(** [floor (elementCount * 0.03)] in exact arithmetic. *)
Definition three_percent (elementCount : Z) : Z := elementCount * 3 / 100.

(** Options that the loop passes without leaving and without looking
    at the state of transparent huge pages. *)
Definition passes (opt : option_char) : bool :=
  match opt with
  | OptT => true
  | OptS num trailing => negb (trailing || (128 <? Z.of_N num))
  | OptH | OptM | OptUnknown => false
  end.

(** The slot of the arena an index designates. *)
Definition arena_at (array : list Double.double) (u : Z) : Double.double :=
  default Double.zero (array !! Z.to_nat u).

(** The sum of a sequence of doubles, taken from the left. *)
Definition left_to_right_sum (values : list Double.double) : Double.double :=
  fold_left Double.add values Double.zero.

(** The kernel grants what the array part asks for, and the
    configuration is one of an array of [endIdx] doubles. *)
Definition served (env : Env) (c : config) : Prop :=
  mmap_succeeds env (arraySize c) (hugetlb c) = true
  /\ (thp c = true -> madvise_succeeds env = true)
  /\ 0 <= endIdx c
  /\ endIdx c = arraySize c / sizeof_double.

(** What a complete run of the array part does, reporting [v]. *)
Definition run_events (c : config) (v : Double.double) : list event :=
  [Mmap (arraySize c) (hugetlb c) true]
  ++ (if thp c then [Madvise (arraySize c) true] else [])
  ++ [InitializingArray; InitTook; AddingTook; ResultIs v;
      Munmap (arraySize c)].

(** The state file of transparent huge pages cannot be opened, or has no
    first line. *)
Definition thp_unreadable (env : Env) : Prop :=
  thp_file env = None
  \/ exists ifs, thp_file env = Some ifs /\ getline ifs = None.

(** Text of a file given as a string literal, and a line of it. *)
Definition text (s : string) : list ascii := list_ascii_of_string s.
Definition line (s : string) : list ascii := text s ++ [NL].

End Spec.

Import Spec.

(** ** Vocabulary of the further properties *)

Module Shape.

(** A file of indices that are inside the array and fit a [long]. *)
Definition well_formed (bound : Z) (l : list Z) : Prop :=
  Forall (fun x => 0 <= x < bound /\ x <= Word.LONG_MAX) l.


(** What [generateIndices] and [readIndices] print. *)
Definition cache_event (e : event) : bool :=
  match e with
  | CantOpenForWriting | GeneratedFile | InvalidLine _
  | InvalidFileRegenerating => true
  | _ => false
  end.

(** Options after which the [switch] goes on to the next one: [-t], a
    [-s] with a whole number of at most 128, and [-m] when transparent
    huge pages are enabled. *)
Definition accepts (env : Env) (opt : option_char) : bool :=
  match opt with
  | OptT => true
  | OptM => thp_state_enabled env
  | OptS num trailing => negb (trailing || (128 <? Z.of_N num))
  | OptH | OptUnknown => false
  end.

(** Options that end in [usage]. *)
Definition rejected (opt : option_char) : bool :=
  match opt with
  | OptH | OptUnknown => true
  | OptS num trailing => trailing || (128 <? Z.of_N num)
  | OptT | OptM => false
  end.

Definition is_t (opt : option_char) : bool :=
  match opt with OptT => true | _ => false end.

Definition is_m (opt : option_char) : bool :=
  match opt with OptM => true | _ => false end.

(** The size in GiB that a sequence of options selects, from [gib]. *)
Fixpoint selected_GiB (os : list option_char) (gib : Z) : Z :=
  match os with
  | [] => gib
  | OptS num _ :: os' => selected_GiB os' (Z.of_N num)
  | _ :: os' => selected_GiB os' gib
  end.

(** The first option that the loop does not go on after, if any. *)
Definition first_refused (env : Env) (os : list option_char)
  : option option_char :=
  List.find (fun opt => negb (accepts env opt)) os.

(** The configuration after options that are all accepted, from the
    default size of 32 GiB. *)
Definition selected_config (os : list option_char) : config :=
  mkConfig (selected_GiB os 32 * 2 ^ 30) (selected_GiB os 32 * 2 ^ 27)
           (existsb is_t os) (existsb is_m os).

(** The forms a run of [main] takes: what it does after what was done
    before, with the status it leaves with. *)
Inductive run_shape : Z -> list event -> Prop :=
| shape_usage : run_shape 1 [UsageText]
| shape_thp_disabled : run_shape 1 [ThpNotEnabled]
| shape_no_indices ms :
    forallb cache_event ms = true ->
    run_shape 1 (GettingIndices :: ms ++ [CantGetIndices])
| shape_no_memory ms size huge :
    forallb cache_event ms = true ->
    run_shape 1 (GettingIndices :: ms
                 ++ [Mmap size huge false; CannotAllocate]
                 ++ (if huge then [HugetlbHint] else []))
| shape_no_advice ms size huge :
    forallb cache_event ms = true ->
    run_shape 1 (GettingIndices :: ms
                 ++ [Mmap size huge true; Madvise size false; MadviseFailed])
| shape_complete ms c v :
    forallb cache_event ms = true ->
    run_shape 0 (GettingIndices :: ms ++ run_events c v).

End Shape.

Import Shape.

(** * Facts about the library routines *)

Lemma wrap_small x : Word.u64 x -> Word.wrap x = x.
Proof. intros H. apply Z.mod_small. exact H. Qed.

Lemma wrap_u64 x : Word.u64 (Word.wrap x).
Proof. apply Z.mod_pos_bound. reflexivity. Qed.

Lemma digit_char_spec d :
  0 <= d <= 9 ->
  isdigit (digit_char d) = true /\ digit_val (digit_char d) = d
  /\ Ascii.eqb (digit_char d) NL = false.
Proof.
  intros H.
  assert (d = 0 \/ d = 1 \/ d = 2 \/ d = 3 \/ d = 4 \/ d = 5 \/ d = 6
          \/ d = 7 \/ d = 8 \/ d = 9) as Hd by lia.
  repeat (destruct Hd as [-> | Hd]; [repeat split; reflexivity |]).
  subst d. repeat split; reflexivity.
Qed.

Lemma digit_not_space c : isdigit c = true -> isspace c = false.
Proof.
  unfold isdigit, isspace. intros H.
  apply andb_true_iff in H as [H1 H2].
  apply Z.leb_le in H1. apply Z.leb_le in H2.
  apply orb_false_iff. split.
  - apply Z.eqb_neq. lia.
  - apply andb_false_iff. right. apply Z.leb_gt. lia.
Qed.

Lemma digit_not_sign c :
  isdigit c = true -> Ascii.eqb c "-" = false /\ Ascii.eqb c "+" = false.
Proof.
  intros H. split; apply Ascii.eqb_neq; intros ->; discriminate H.
Qed.

(** The digits [print_digits] puts in front of [tail] read back as the
    number printed. *)
Lemma print_digits_scan fuel : forall n tail,
  0 <= n < 10 ^ Z.of_nat fuel -> (0 < fuel)%nat ->
  exists ds,
    print_digits fuel n tail = ds ++ tail
    /\ ds <> []
    /\ (length ds <= fuel)%nat
    /\ Forall (fun c => isdigit c = true /\ Ascii.eqb c NL = false) ds
    /\ forall a rest,
         scan_digits a (ds ++ rest)
         = scan_digits (a * 10 ^ Z.of_nat (length ds) + n) rest.
Proof.
  induction fuel as [|fuel IH]; intros n tail Hn Hfuel; [lia|].
  assert (0 <= n mod 10 <= 9) as Hd by (pose proof (Z.mod_pos_bound n 10); lia).
  destruct (digit_char_spec _ Hd) as (Hdig & Hval & Hnl).
  cbn [print_digits]. destruct (n / 10 =? 0) eqn:Hq.
  - apply Z.eqb_eq in Hq.
    exists [digit_char (n mod 10)]. repeat split.
    + discriminate.
    + simpl. lia.
    + repeat constructor; assumption.
    + intros a rest. cbn [app scan_digits length]. rewrite Hdig, Hval.
      f_equal. pose proof (Z.div_mod n 10). lia.
  - apply Z.eqb_neq in Hq.
    assert (0 <= n / 10 < 10 ^ Z.of_nat fuel) as Hn'.
    { split; [apply Z.div_pos; lia|].
      apply Z.div_lt_upper_bound; [lia|].
      replace (Z.of_nat (S fuel)) with (Z.of_nat fuel + 1) in Hn by lia.
      rewrite Z.pow_add_r in Hn by lia. lia. }
    assert (0 < fuel)%nat as Hf'.
    { destruct fuel; [|lia]. change (10 ^ Z.of_nat 0) with 1 in Hn'. lia. }
    destruct (IH (n / 10) (digit_char (n mod 10) :: tail) Hn' Hf')
      as (ds & Hp & Hne & Hlen & Hall & Hscan).
    exists (ds ++ [digit_char (n mod 10)]). repeat split.
    + rewrite Hp, <- app_assoc. reflexivity.
    + destruct ds; discriminate.
    + rewrite length_app. simpl. lia.
    + apply Forall_app. split; [assumption|]. repeat constructor; assumption.
    + intros a rest. rewrite <- app_assoc, Hscan. cbn [app scan_digits].
      rewrite Hdig, Hval, length_app. cbn [length].
      f_equal.
      replace (Z.of_nat (length ds + 1)) with (Z.of_nat (length ds) + 1) by lia.
      rewrite Z.pow_add_r by lia.
      pose proof (Z.div_mod n 10). lia.
Qed.

Lemma print_lu_scan x :
  Word.u64 x ->
  exists ds,
    print_lu x = ds
    /\ ds <> []
    /\ (length ds <= 20)%nat
    /\ Forall (fun c => isdigit c = true /\ Ascii.eqb c NL = false) ds
    /\ forall a rest,
         scan_digits a (ds ++ rest)
         = scan_digits (a * 10 ^ Z.of_nat (length ds) + x) rest.
Proof.
  intros Hx. unfold print_lu. rewrite (wrap_small x Hx).
  destruct (print_digits_scan 20 x []) as (ds & Hp & Hne & Hlen & Hall & Hscan).
  - unfold Word.u64, Word.ULONG_MODULUS in Hx. lia.
  - lia.
  - exists ds. rewrite app_nil_r in Hp. auto.
Qed.

Lemma fgets_chars_line ds : forall room rest,
  Forall (fun c => isdigit c = true /\ Ascii.eqb c NL = false) ds ->
  (length ds < room)%nat ->
  fgets_chars room (ds ++ NL :: rest) = (ds ++ [NL], rest).
Proof.
  induction ds as [|c ds IH]; intros room rest Hall Hlen.
  - destruct room; [simpl in Hlen; lia|]. reflexivity.
  - destruct room; [simpl in Hlen; lia|].
    inversion Hall as [|? ? [_ Hc] Hall']; subst.
    cbn [app fgets_chars]. rewrite Hc, IH; [reflexivity|assumption|].
    simpl in Hlen. lia.
Qed.

(** A line that [fprintf] wrote is one buffer of [fgets]. *)
Lemma fgets_printed_line x rest :
  Word.u64 x ->
  fgets 128 (print_lu_line x ++ rest) = Some (print_lu_line x, rest).
Proof.
  intros Hx. destruct (print_lu_scan x Hx) as (ds & Hp & Hne & Hlen & Hall & _).
  unfold print_lu_line. rewrite Hp, <- app_assoc. cbn [app].
  unfold fgets. destruct ds as [|c ds]; [congruence|].
  cbn [app]. change (c :: ds ++ NL :: rest) with ((c :: ds) ++ NL :: rest).
  rewrite fgets_chars_line; [reflexivity|assumption|].
  change (128 - 1)%nat with 127%nat. lia.
Qed.

(** ... and [strtol] reads the number back, stopping at the newline. *)
Lemma strtol_printed_line x :
  0 <= x <= Word.LONG_MAX ->
  strtol (print_lu_line x) = (x, [NL]).
Proof.
  intros Hx.
  assert (Word.u64 x) as Hu.
  { unfold Word.u64, Word.ULONG_MODULUS, Word.LONG_MAX in *. lia. }
  destruct (print_lu_scan x Hu) as (ds & Hp & Hne & Hlen & Hall & Hscan).
  unfold print_lu_line. rewrite Hp.
  destruct ds as [|c ds]; [congruence|].
  inversion Hall as [|? ? [Hc _] _]; subst.
  unfold strtol. cbn [app skip_space]. rewrite (digit_not_space c Hc).
  unfold scan_sign. destruct (digit_not_sign c Hc) as [-> ->].
  rewrite Hc.
  change (c :: ds ++ [NL]) with ((c :: ds) ++ [NL]).
  rewrite Hscan. cbn [scan_digits]. change (isdigit NL) with false. cbv iota.
  f_equal. lia.
Qed.

Lemma fgets_shorter stream buf rest :
  fgets 128 stream = Some (buf, rest) ->
  (length rest < length stream)%nat.
Proof.
  unfold fgets. destruct stream as [|c stream]; [discriminate|].
  change (128 - 1)%nat with (S 126). generalize 126%nat. intros room0 H.
  injection H as H.
  assert (forall room s b r, fgets_chars room s = (b, r) ->
                             (length r <= length s)%nat) as Hle.
  { clear. induction room as [|room IH]; intros s b r H.
    - simpl in H. injection H as <- <-. lia.
    - destruct s as [|c s]; [simpl in H; injection H as <- <-; simpl; lia|].
      cbn [fgets_chars] in H. destruct (Ascii.eqb c NL).
      + injection H as <- <-. simpl. lia.
      + destruct (fgets_chars room s) as [b' r'] eqn:E.
        injection H as <- <-. apply IH in E. simpl. lia. }
  cbn [fgets_chars] in H. destruct (Ascii.eqb c NL).
  - injection H as <- <-. simpl. lia.
  - destruct (fgets_chars room0 stream) as [b' r'] eqn:E.
    injection H as <- <-. apply Hle in E. simpl. lia.
Qed.

(** * Facts about the index cache *)

Lemma uniform_int_range lo hi raw :
  lo <= hi -> lo <= uniform_int lo hi raw <= hi.
Proof.
  intros H. unfold uniform_int.
  pose proof (Z.mod_pos_bound raw (hi - lo + 1)). lia.
Qed.

Lemma drawn_length endIdx rng k n : length (drawn endIdx rng k n) = n.
Proof. unfold drawn. rewrite length_map. apply length_seq. Qed.

Lemma drawn_range endIdx rng k n :
  1 <= endIdx < Word.ULONG_MODULUS ->
  Forall (fun x => 0 <= x < endIdx) (drawn endIdx rng k n).
Proof.
  intros H. unfold drawn. apply Forall_map, Forall_forall. intros j _.
  rewrite wrap_small by (unfold Word.u64; lia).
  pose proof (uniform_int_range 0 (endIdx - 1) (rng j)). simpl. lia.
Qed.

Lemma index_file_cons x l :
  index_file (x :: l) = print_lu_line x ++ index_file l.
Proof. reflexivity. Qed.

Lemma generate_loop_spec n : forall k endIdx rng fd indices,
  generate_loop n k endIdx rng fd indices
  = (fd ++ index_file (drawn endIdx rng k n),
     indices ++ drawn endIdx rng k n).
Proof.
  induction n as [|n IH]; intros k endIdx rng fd indices.
  - simpl. unfold index_file. simpl. rewrite !app_nil_r. reflexivity.
  - cbn [generate_loop]. rewrite IH. unfold drawn. cbn [seq map].
    rewrite index_file_cons, <- !app_assoc. reflexivity.
Qed.

Lemma generateIndices_writable indices endIdx numIndices w :
  idx_writable w = true ->
  generateIndices indices endIdx numIndices w
  = (true,
     indices ++ drawn endIdx (entropy w) 0 (Z.to_nat numIndices),
     say GeneratedFile
       (write_file
          (index_file (drawn endIdx (entropy w) 0 (Z.to_nat numIndices)))
                   (consume (Z.to_nat numIndices) w))).
Proof.
  intros Hw. unfold generateIndices. rewrite Hw, generate_loop_spec.
  reflexivity.
Qed.

Lemma generateIndices_readonly indices endIdx numIndices w :
  idx_writable w = false ->
  generateIndices indices endIdx numIndices w
  = (false, indices, say CantOpenForWriting w).
Proof. intros Hw. unfold generateIndices. rewrite Hw. reflexivity. Qed.

(** A successful call of [generateIndices] on the empty vector, in
    hypothesis [H], found the file writable: its result is what was
    drawn. *)
Ltac generate_cases H :=
  match type of H with
  | generateIndices [] _ _ ?w = (true, _, _) =>
      let Hw := fresh "Hw" in
      destruct (idx_writable w) eqn:Hw;
      [ rewrite generateIndices_writable in H by exact Hw;
        injection H as <- <-
      | rewrite generateIndices_readonly in H by exact Hw;
        discriminate H ]
  end.

Section ReadLoop.

Variables endIdx numIndices : Z.

(** The length of the stream is fuel enough for the read loop. *)
Lemma read_loop_fuel f1 : forall f2 stream st,
  (length stream <= f1)%nat -> (length stream <= f2)%nat ->
  read_loop f1 endIdx numIndices stream st
  = read_loop f2 endIdx numIndices stream st.
Proof.
  induction f1 as [|f1 IH]; intros f2 stream st H1 H2.
  - destruct stream; [|simpl in H1; lia]. destruct f2; reflexivity.
  - destruct f2 as [|f2].
    + destruct stream; [|simpl in H2; lia]. reflexivity.
    + cbn [read_loop]. destruct (fgets 128 stream) as [[buf rest]|] eqn:E;
        [|reflexivity].
      apply fgets_shorter in E.
      destruct (strtol buf) as [idx endPtr].
      destruct (invalid_line idx endPtr endIdx); [reflexivity|].
      destruct (numIndices <? _); [reflexivity|].
      apply IH; lia.
Qed.

Lemma fgets_all_fuel f1 : forall f2 stream,
  (length stream <= f1)%nat -> (length stream <= f2)%nat ->
  fgets_all f1 stream = fgets_all f2 stream.
Proof.
  induction f1 as [|f1 IH]; intros f2 stream H1 H2.
  - destruct stream; [|simpl in H1; lia]. destruct f2; reflexivity.
  - destruct f2 as [|f2].
    + destruct stream; [|simpl in H2; lia]. reflexivity.
    + cbn [fgets_all]. destruct (fgets 128 stream) as [[buf rest]|] eqn:E;
        [|reflexivity].
      apply fgets_shorter in E. f_equal. apply IH; lia.
Qed.

Lemma max_seen_bounds hi l : forall m,
  0 <= m <= hi -> Forall (fun x => 0 <= x <= hi) l ->
  0 <= max_seen m l <= hi.
Proof.
  induction l as [|x l IH]; intros m Hm Hl; [exact Hm|].
  inversion Hl; subst. apply IH; [lia|assumption].
Qed.



Lemma scan_digits_nonneg s : forall acc,
  0 <= acc -> 0 <= fst (scan_digits acc s).
Proof.
  induction s as [|c s IH]; intros acc Hacc; [exact Hacc|].
  cbn [scan_digits]. destruct (isdigit c) eqn:Hc; [|exact Hacc].
  apply IH. unfold isdigit in Hc. apply andb_true_iff in Hc as [Hc _].
  apply Z.leb_le in Hc. unfold digit_val. lia.
Qed.

(** [strtol] yields a value of type [long]. *)
Lemma strtol_range buf :
  Word.LONG_MIN <= fst (strtol buf) <= Word.LONG_MAX.
Proof.
  unfold strtol. destruct (scan_sign (skip_space buf)) as [neg s0].
  assert (Word.LONG_MIN <= 0 <= Word.LONG_MAX) as H0 by (split; discriminate).
  destruct s0 as [|c s0]; [exact H0|].
  destruct (isdigit c); [|exact H0].
  pose proof (scan_digits_nonneg (c :: s0) 0 (Z.le_refl 0)) as Hv.
  destruct (scan_digits 0 (c :: s0)) as [v rest]. cbn [fst] in *.
  destruct neg; lia.
Qed.

(** A buffer that passes the validity test stands for an index of the
    array. *)
Lemma valid_buffer_index buf :
  buffer_invalid endIdx buf = false ->
  0 <= buffer_index buf < endIdx /\ buffer_index buf = fst (strtol buf).
Proof.
  unfold buffer_invalid, buffer_index, invalid_line. intros H.
  apply orb_false_iff in H as [H H3]. apply orb_false_iff in H as [_ H2].
  apply Z.ltb_ge in H2. apply Z.leb_gt in H3.
  pose proof (strtol_range buf) as Hr.
  rewrite wrap_small in *; [lia| |];
    unfold Word.u64, Word.ULONG_MODULUS, Word.LONG_MAX in *; lia.
Qed.

(** What the read loop leaves behind: the indices of the first [k]
    buffers of the stream, all of them valid, and their maximum. *)
Lemma read_loop_spec fuel : forall stream st,
  exists k ms,
    let bufs := take k (fgets_all fuel stream) in
    let st' := read_loop fuel endIdx numIndices stream st in
    rd_indices st' = rd_indices st ++ map buffer_index bufs
    /\ rd_maxIdx st' = max_seen (rd_maxIdx st) (map buffer_index bufs)
    /\ Forall (fun b => buffer_invalid endIdx b = false) bufs
    /\ rd_printed st' = rd_printed st ++ ms
    /\ Forall (fun m => exists buf, m = InvalidLine buf) ms
    /\ (Z.of_nat (length (rd_indices st)) <= numIndices ->
        Z.of_nat (length (rd_indices st')) <= numIndices + 1).
Proof.
  induction fuel as [|fuel IH]; intros stream st.
  - exists 0%nat, []. cbn. rewrite !app_nil_r. repeat split; auto; lia.
  - cbn [read_loop fgets_all].
    destruct (fgets 128 stream) as [[buf rest]|] eqn:E.
    2:{ exists 0%nat, []. cbn. rewrite !app_nil_r. repeat split; auto; lia. }
    destruct (strtol buf) as [idx endPtr] eqn:Es.
    destruct (invalid_line idx endPtr endIdx) eqn:Ev.
    { exists 0%nat, [InvalidLine buf]. cbn. rewrite !app_nil_r.
      repeat split; auto; [|lia].
      repeat constructor. exists buf. reflexivity. }
    assert (buffer_index buf = Word.wrap idx) as Hbi.
    { unfold buffer_index. rewrite Es. reflexivity. }
    assert (buffer_invalid endIdx buf = false) as Hbv.
    { unfold buffer_invalid. rewrite Es. exact Ev. }
    destruct (numIndices
              <? Z.of_nat (length (rd_indices st ++ [Word.wrap idx])))
      eqn:Efull.
    { exists 1%nat, []. cbn. rewrite take_0, !app_nil_r, Hbi.
      repeat split; auto.
      rewrite length_app. cbn [length]. lia. }
    apply Z.ltb_ge in Efull.
    destruct (IH rest (mkReading (rd_indices st ++ [Word.wrap idx])
                                 (Z.max (rd_maxIdx st) (Word.wrap idx))
                                 (rd_printed st)))
      as (k & ms & H1 & H2 & H3 & H4 & H5 & H6).
    cbn [rd_indices rd_maxIdx rd_printed] in *.
    exists (S k), ms. cbn zeta. cbn [take map]. rewrite Hbi.
    split; [rewrite H1, <- app_assoc; reflexivity|].
    split; [rewrite H2; reflexivity|].
    split; [constructor; assumption|].
    split; [exact H4|]. split; [exact H5|].
    intros _. apply H6, Efull.
Qed.

Lemma read_loop_nil fuel st :
  read_loop fuel endIdx numIndices [] st = st.
Proof. destruct fuel; reflexivity. Qed.

Lemma length_index_file_cons x l :
  length (index_file (x :: l))
  = (length (print_lu_line x) + length (index_file l))%nat.
Proof. rewrite index_file_cons. apply length_app. Qed.

Lemma print_lu_line_nonempty x : (0 < length (print_lu_line x))%nat.
Proof. unfold print_lu_line. rewrite length_app. simpl. lia. Qed.

(** Reading back a file of printed indices stores exactly these indices,
    as long as the vector has room for them. *)
Lemma read_loop_index_file l : forall fuel st,
  Forall (fun x => 0 <= x < endIdx /\ x <= Word.LONG_MAX) l ->
  Z.of_nat (length (rd_indices st) + length l) <= numIndices ->
  (length (index_file l) <= fuel)%nat ->
  read_loop fuel endIdx numIndices (index_file l) st
  = mkReading (rd_indices st ++ l) (max_seen (rd_maxIdx st) l) (rd_printed st).
Proof.
  induction l as [|x l IH]; intros fuel st Hall Hroom Hfuel.
  - change (index_file []) with (@nil ascii). rewrite read_loop_nil.
    destruct st. cbn. rewrite app_nil_r. reflexivity.
  - inversion Hall as [|? ? [Hx Hmax] Hall']; subst.
    assert (Word.u64 x) as Hu.
    { unfold Word.u64, Word.ULONG_MODULUS, Word.LONG_MAX in *. lia. }
    rewrite length_index_file_cons in Hfuel.
    pose proof (print_lu_line_nonempty x).
    destruct fuel as [|fuel]; [lia|].
    cbn [read_loop]. rewrite index_file_cons, fgets_printed_line by exact Hu.
    rewrite strtol_printed_line by lia.
    assert (invalid_line x [NL] endIdx = false) as ->.
    { unfold invalid_line. cbn [deref]. rewrite Ascii.eqb_refl.
      cbn [negb andb orb]. rewrite (wrap_small x Hu).
      apply orb_false_iff. split; [apply Z.ltb_ge|apply Z.leb_gt]; lia. }
    rewrite (wrap_small x Hu).
    assert ((numIndices <? Z.of_nat (length (rd_indices st ++ [x]))) = false)
      as ->.
    { apply Z.ltb_ge. rewrite length_app. cbn [length] in *. lia. }
    rewrite IH; cbn [rd_indices rd_maxIdx rd_printed].
    + rewrite <- app_assoc. reflexivity.
    + exact Hall'.
    + rewrite length_app. cbn [length] in *. lia.
    + lia.
Qed.

End ReadLoop.

(** [fgets] cuts a file of printed indices at its lines. *)
Lemma buffers_index_file l :
  Forall Word.u64 l ->
  buffers (index_file l) = map print_lu_line l.
Proof.
  unfold buffers. generalize (Nat.le_refl (length (index_file l))).
  generalize (length (index_file l)) at 2 3 as fuel.
  induction l as [|x l IH]; intros fuel Hfuel Hall.
  - destruct fuel; reflexivity.
  - inversion Hall as [|? ? Hu Hall']; subst.
    rewrite length_index_file_cons in Hfuel.
    pose proof (print_lu_line_nonempty x).
    destruct fuel as [|fuel]; [lia|].
    cbn [fgets_all]. rewrite index_file_cons, fgets_printed_line by exact Hu.
    cbn [map]. f_equal. apply IH; [lia|exact Hall'].
Qed.

(** The staleness test without the wrap-around, which the loop invariant
    excludes. *)
Lemma stale_spec endIdx numIndices st :
  Word.u64 endIdx -> 0 <= rd_maxIdx st <= endIdx ->
  stale endIdx numIndices st = false
  <-> Z.of_nat (length (rd_indices st)) = numIndices
      /\ endIdx - rd_maxIdx st <= 10000000.
Proof.
  intros Hu Hm. unfold stale.
  rewrite wrap_small by (unfold Word.u64 in *; lia).
  rewrite orb_false_iff, negb_false_iff, Z.ltb_ge, Z.eqb_eq. tauto.
Qed.

(** The maximum the loop has seen is that of the indices it stored and
    lies below the bound. *)
Lemma read_loop_max endIdx numIndices stream :
  0 <= endIdx ->
  let st := read_loop (length stream) endIdx numIndices stream
                      (mkReading [] 0 []) in
  rd_maxIdx st = max_seen 0 (rd_indices st)
  /\ 0 <= rd_maxIdx st <= endIdx
  /\ Forall (fun x => 0 <= x < endIdx) (rd_indices st).
Proof.
  intros Hend st.
  destruct (read_loop_spec endIdx numIndices (length stream) stream
                           (mkReading [] 0 []))
    as (k & ms & H1 & H2 & H3 & _).
  cbn [rd_indices rd_maxIdx app] in H1, H2. fold st in H1, H2.
  assert (Forall (fun x => 0 <= x < endIdx) (rd_indices st)) as Hall.
  { rewrite H1. apply Forall_map. eapply Forall_impl; [exact H3|].
    intros b Hb. apply (valid_buffer_index endIdx b Hb). }
  split; [rewrite H2, H1; reflexivity|]. split; [|exact Hall].
  rewrite H2, <- H1. apply max_seen_bounds; [lia|].
  eapply Forall_impl; [exact Hall|]. cbn. intros. lia.
Qed.

(** Loading a file that a generation run has just written, when the
    largest index drawn is within 10,000,000 of the bound. *)
Lemma readIndices_generated w bound count l :
  0 <= bound <= 2 ^ 63 -> 0 <= count -> (bound = 0 -> count = 0) ->
  l = drawn bound (entropy w) 0 (Z.to_nat count) ->
  forall w1, idx_file w1 = Some (index_file l) ->
  bound - max_seen 0 l <= 10000000 ->
  readIndices [] bound count w1 = (true, l, say_all [] w1).
Proof.
  intros Hb Hc H0 Hl w1 Hf Hgap.
  assert (Forall (fun x => 0 <= x < bound) l) as Hall.
  { destruct (Z.eq_dec bound 0) as [Hz|Hnz].
    - rewrite Hl, (H0 Hz). constructor.
    - rewrite Hl. apply drawn_range. unfold Word.ULONG_MODULUS. lia. }
  pose proof (drawn_length bound (entropy w) 0 (Z.to_nat count)) as Hlen.
  rewrite <- Hl in Hlen.
  unfold readIndices. rewrite Hf.
  rewrite read_loop_index_file; cbn [rd_indices rd_maxIdx rd_printed app].
  - assert (stale bound count (mkReading l (max_seen 0 l) []) = false) as ->;
      [|reflexivity].
    apply stale_spec; cbn [rd_indices rd_maxIdx].
    + unfold Word.u64, Word.ULONG_MODULUS. lia.
    + apply max_seen_bounds; [lia|].
      eapply Forall_impl; [exact Hall|]. cbn. intros. lia.
    + split; [lia|exact Hgap].
  - eapply Forall_impl; [exact Hall|]. cbn. unfold Word.LONG_MAX. intros. lia.
  - cbn [length]. lia.
  - lia.
Qed.

(** Loading a file that a generation run has just written, when the
    largest index drawn is more than 10,000,000 below the bound: the file
    is read whole, found stale and replaced. *)
Lemma readIndices_generated_stale w bound count l :
  0 <= bound <= 2 ^ 63 -> 0 <= count -> (bound = 0 -> count = 0) ->
  l = drawn bound (entropy w) 0 (Z.to_nat count) ->
  forall w1, idx_file w1 = Some (index_file l) ->
  bound - max_seen 0 l > 10000000 ->
  readIndices [] bound count w1
  = generateIndices [] bound count
      (say InvalidFileRegenerating (say_all [] w1)).
Proof.
  intros Hb Hc H0 Hl w1 Hf Hgap.
  assert (Forall (fun x => 0 <= x < bound) l) as Hall.
  { destruct (Z.eq_dec bound 0) as [Hz|Hnz].
    - rewrite Hl, (H0 Hz). constructor.
    - rewrite Hl. apply drawn_range. unfold Word.ULONG_MODULUS. lia. }
  pose proof (drawn_length bound (entropy w) 0 (Z.to_nat count)) as Hlen.
  rewrite <- Hl in Hlen.
  assert (0 <= max_seen 0 l <= bound) as Hmax.
  { apply max_seen_bounds; [lia|].
    eapply Forall_impl; [exact Hall|]. cbn. intros. lia. }
  unfold readIndices. rewrite Hf.
  rewrite read_loop_index_file; cbn [rd_indices rd_maxIdx rd_printed app].
  - assert (stale bound count (mkReading l (max_seen 0 l) []) = true) as ->;
      [|reflexivity].
    unfold stale. apply orb_true_iff. left. cbn [rd_maxIdx].
    rewrite wrap_small by (unfold Word.u64, Word.ULONG_MODULUS; lia).
    apply Z.ltb_lt. lia.
  - eapply Forall_impl; [exact Hall|]. cbn. unfold Word.LONG_MAX. intros. lia.
  - cbn [length]. lia.
  - lia.
Qed.

(** An invalid line among the first [count] buffers of the file makes
    the load regenerate. *)
Lemma invalid_within_count_stale stream bound count (k : nat) buf :
  buffers stream !! k = Some buf ->
  Z.of_nat k < count ->
  buffer_invalid bound buf = true ->
  stale bound count
        (read_loop (length stream) bound count stream (mkReading [] 0 []))
  = true.
Proof.
  intros Hk Hlt Hbad.
  destruct (read_loop_spec bound count (length stream) stream
                           (mkReading [] 0 []))
    as (n & ms & H1 & _ & H3 & _).
  cbn zeta in H1, H3. cbn [rd_indices app] in H1. fold (buffers stream) in *.
  apply not_false_iff_true. intros Hs. unfold stale in Hs.
  apply orb_false_iff in Hs as [_ Hs].
  apply negb_false_iff, Z.eqb_eq in Hs.
  rewrite H1, length_map in Hs.
  assert (take n (buffers stream) !! k = Some buf) as Hin.
  { rewrite lookup_take_lt; [exact Hk|].
    rewrite length_take in Hs. lia. }
  rewrite Forall_forall in H3.
  specialize (H3 buf (list_elem_of_lookup_2 _ _ _ Hin)).
  congruence.
Qed.

(** Every index of a successful load is an index of the array. *)
Lemma readIndices_in_range w bound count res w' :
  Word.u64 bound -> (bound = 0 -> count = 0) ->
  readIndices [] bound count w = (true, res, w') ->
  Forall (fun u => 0 <= u < bound) res.
Proof.
  intros Hu H0.
  assert (Forall (fun u => 0 <= u < bound)
                 (drawn bound (entropy w) 0 (Z.to_nat count))) as Hdrawn.
  { destruct (Z.eq_dec bound 0) as [Hz|Hnz].
    - rewrite (H0 Hz). constructor.
    - apply drawn_range. unfold Word.u64 in Hu. lia. }
  assert (0 <= bound) as Hb by (unfold Word.u64 in Hu; lia).
  unfold readIndices. destruct (idx_file w) as [stream|].
  - destruct (read_loop_max bound count stream Hb) as (_ & _ & Hall).
    cbn zeta in Hall. destruct (stale bound count _).
    + intros H. generate_cases H. exact Hdrawn.
    + intros H. injection H as <- _. exact Hall.
  - intros H. generate_cases H. exact Hdrawn.
Qed.

(** * Properties of the index cache *)

(** C5.  For a bound of at least 1, a generation run that can open the
    file yields exactly [count] indices, each in [[0, bound)], in the order
    they were drawn; the file then holds exactly these values, one per
    line in the same order, whatever it held before. *)
Theorem fresh_index_set w bound count :
  1 <= bound < Word.ULONG_MODULUS -> 0 <= count -> idx_writable w = true ->
  exists l w',
    generateIndices [] bound count w = (true, l, w')
    /\ Z.of_nat (length l) = count
    /\ Forall (fun x => 0 <= x < bound) l
    /\ l = drawn bound (entropy w) 0 (Z.to_nat count)
    /\ idx_file w' = Some (index_file l)
    /\ buffers (index_file l) = map print_lu_line l.
Proof.
  intros Hb Hc Hw.
  exists (drawn bound (entropy w) 0 (Z.to_nat count)). eexists.
  split; [apply (generateIndices_writable [] bound count w Hw)|].
  split; [rewrite drawn_length; lia|].
  split; [apply drawn_range; exact Hb|].
  split; [reflexivity|]. split; [reflexivity|].
  apply buffers_index_file.
  eapply Forall_impl; [apply (drawn_range bound (entropy w) 0 _ Hb)|].
  cbn. unfold Word.u64. intros. lia.
Qed.

Lemma fresh_index_set_witness :
  exists l w',
    generateIndices [] 1000 30 (mkWorld (Some (line "7")) true Z.of_nat [])
    = (true, l, w')
    /\ Z.of_nat (length l) = 30
    /\ Forall (fun x => 0 <= x < 1000) l
    /\ l = drawn 1000 Z.of_nat 0 (Z.to_nat 30)
    /\ idx_file w' = Some (index_file l)
    /\ buffers (index_file l) = map print_lu_line l.
Proof.
  apply (fresh_index_set (mkWorld (Some (line "7")) true Z.of_nat []) 1000 30).
  - unfold Word.ULONG_MODULUS. lia.
  - lia.
  - reflexivity.
Defined.




(** C2 at the failing input: with [count = 2], a file of two valid lines
    and a third, non-numeric one is accepted as it is; the two indices are
    returned, the file stays and nothing is generated. *)
Theorem corrupt_line_after_count_accepted :
  let stream := line "1" ++ line "2" ++ line "abc" in
  let w := mkWorld (Some stream) true Z.of_nat [] in
  buffer_invalid 10 (line "abc") = true
  /\ readIndices [] 10 2 w
     = (true, [1; 2], mkWorld (Some stream) true Z.of_nat
                              [InvalidLine (line "abc")]).
Proof. split; reflexivity. Qed.

(** C10.  A successful load returns either the indices of the first
    buffers of the file, all valid and in file order, leaving file and
    generator alone, or exactly the freshly drawn indices, which are then
    the content of the file: what the loop had read is not part of a
    regenerated set. *)
Theorem loaded_set_unmixed w bound count res w' :
  readIndices [] bound count w = (true, res, w') ->
  (exists stream k,
      idx_file w = Some stream
      /\ res = map buffer_index (take k (buffers stream))
      /\ Forall (fun b => buffer_invalid bound b = false)
                (take k (buffers stream))
      /\ only_read w w')
  \/ (res = drawn bound (entropy w) 0 (Z.to_nat count)
      /\ idx_file w' = Some (index_file res)).
Proof.
  unfold readIndices. destruct (idx_file w) as [stream|] eqn:Hf.
  - destruct (read_loop_spec bound count (length stream) stream
                             (mkReading [] 0 []))
      as (k & ms & H1 & _ & H3 & H4 & H5 & _).
    cbn zeta in *. cbn [rd_indices rd_printed app] in H1, H4.
    destruct (stale bound count _).
    + intros H. right. generate_cases H. split; reflexivity.
    + intros H. injection H as <- <-. left. exists stream, k.
      split; [reflexivity|]. split; [exact H1|]. split; [exact H3|].
      exists ms. rewrite H4. split; [reflexivity|exact H5].
  - intros H. right. generate_cases H. split; reflexivity.
Qed.

Lemma loaded_set_unmixed_witness :
  let w := mkWorld (Some (line "1" ++ line "x" ++ line "2")) true Z.of_nat [] in
  let res := [0; 1] in
  let w' := mkWorld (Some (index_file [0; 1])) true
                    (fun k => Z.of_nat (2 + k))
                    [InvalidLine (line "x"); InvalidFileRegenerating;
                     GeneratedFile] in
  readIndices [] 10 2 w = (true, res, w')
  /\ ((exists stream k,
         idx_file w = Some stream
         /\ res = map buffer_index (take k (buffers stream))
         /\ Forall (fun b => buffer_invalid 10 b = false)
                   (take k (buffers stream))
         /\ only_read w w')
      \/ (res = drawn 10 (entropy w) 0 (Z.to_nat 2)
          /\ idx_file w' = Some (index_file res))).
Proof.
  cbn zeta. split; [reflexivity|].
  apply (loaded_set_unmixed _ 10 2). reflexivity.
Defined.

(** C1, counterexample.  A second load can regenerate: with
    [bound = 20,000,000] and [count = 1] the first load draws index 0,
    which is more than 10,000,000 below the bound, so the second load
    finds the file stale and draws again. *)
Lemma reload_regenerates :
  let w := mkWorld None true Z.of_nat [] in
  let '(ok1, l1, w1) := readIndices [] 20000000 1 w in
  let '(ok2, l2, w2) := readIndices [] 20000000 1 w1 in
  ok1 = true /\ ok2 = true /\ l1 = [0] /\ l2 = [1] /\ l1 <> l2
  /\ idx_file w1 = Some (line "0") /\ idx_file w2 = Some (line "1")
  /\ printed w2 = [GeneratedFile; InvalidFileRegenerating; GeneratedFile].
Proof. cbn. repeat split; try reflexivity. discriminate. Qed.

(** C1, amended.  For a bound of at most [2 ^ 63] (and a count of 0
    when the bound is 0), and a file that can be read once it is written.
    When a load has returned an index set whose maximum is within
    10,000,000 of the bound, the next load with the same bound and count
    returns the same sequence, and it only reads: the file and the
    generator are left as they were.  When the maximum of the returned
    set is more than 10,000,000 below the bound, the set was freshly
    generated, the file holds it, and the next load finds the file stale
    and runs the generation again. *)
Theorem reload_idempotent w bound count l w1 :
  0 <= bound <= 2 ^ 63 -> 0 <= count -> (bound = 0 -> count = 0) ->
  readIndices [] bound count w = (true, l, w1) ->
  (bound - max_seen 0 l <= 10000000 ->
   exists w2,
     readIndices [] bound count w1 = (true, l, w2) /\ only_read w1 w2)
  /\ (bound - max_seen 0 l > 10000000 ->
      idx_file w1 = Some (index_file l)
      /\ l = drawn bound (entropy w) 0 (Z.to_nat count)
      /\ readIndices [] bound count w1
         = generateIndices [] bound count
             (say InvalidFileRegenerating (say_all [] w1))).
Proof.
  intros Hb Hc H0 Hload.
  assert (forall w0 : World,
             entropy w0 = entropy w ->
             generateIndices [] bound count w0 = (true, l, w1) ->
             l = drawn bound (entropy w) 0 (Z.to_nat count)
             /\ idx_file w1 = Some (index_file l)) as Hgen.
  { intros w0 He H. destruct (idx_writable w0) eqn:Hw.
    - rewrite generateIndices_writable in H by exact Hw.
      injection H as Hl Hw1. cbn [app] in Hl. rewrite He in Hl.
      split; [symmetry; exact Hl|]. rewrite <- Hw1, <- Hl, He. reflexivity.
    - rewrite generateIndices_readonly in H by exact Hw. discriminate H. }
  assert (Word.u64 bound) as Hu
    by (unfold Word.u64, Word.ULONG_MODULUS; lia).
  unfold readIndices in Hload. destruct (idx_file w) as [stream|] eqn:Hf.
  - destruct (read_loop_spec bound count (length stream) stream
                             (mkReading [] 0 []))
      as (k & ms & _ & _ & _ & H4 & H5 & _).
    destruct (read_loop_max bound count stream (proj1 Hb))
      as (Hmax & Hrange & _).
    cbn zeta in *. cbn [rd_printed app] in H4.
    destruct (stale bound count _) eqn:Hs.
    + apply Hgen in Hload as [Hl Hfile]; [|reflexivity]. split.
      * intros Hgap. exists (say_all [] w1). split.
        -- apply (readIndices_generated w bound count l Hb Hc H0 Hl);
             assumption.
        -- exists []. split; [reflexivity|constructor].
      * intros Hgap. split; [exact Hfile|]. split; [exact Hl|].
        apply (readIndices_generated_stale w bound count l Hb Hc H0 Hl);
          assumption.
    + pose proof (proj1 (stale_spec bound count _ Hu Hrange) Hs)
        as [_ Hfresh].
      rewrite Hmax in Hfresh.
      injection Hload as <- <-. split.
      * intros _. eexists. split.
        -- unfold readIndices. cbn [say_all idx_file]. rewrite Hf, Hs.
           reflexivity.
        -- exists ms. rewrite H4. split; [reflexivity|exact H5].
      * intros Hgap. lia.
  - apply Hgen in Hload as [Hl Hfile]; [|reflexivity]. split.
    + intros Hgap. exists (say_all [] w1). split.
      * apply (readIndices_generated w bound count l Hb Hc H0 Hl);
          assumption.
      * exists []. split; [reflexivity|constructor].
    + intros Hgap. split; [exact Hfile|]. split; [exact Hl|].
      apply (readIndices_generated_stale w bound count l Hb Hc H0 Hl);
        assumption.
Qed.

Lemma reload_idempotent_witness :
  let w1 := mkWorld (Some (index_file [0; 1])) true
                    (fun k => Z.of_nat (2 + k)) [GeneratedFile] in
  exists w2,
    readIndices [] 1000 2 w1 = (true, [0; 1], w2) /\ only_read w1 w2.
Proof.
  apply (reload_idempotent (mkWorld None true Z.of_nat []) 1000 2).
  - lia.
  - lia.
  - lia.
  - reflexivity.
  - vm_compute. discriminate.
Defined.

(** * Facts about [main] *)

Lemma bind_next {A B : Type} (p : Prog A) (k : A -> Prog B) w b w' :
  bind p k w = (Next b, w') ->
  exists a w1, p w = (Next a, w1) /\ k a w1 = (Next b, w').
Proof.
  unfold bind. destruct (p w) as [[a| |] w1]; try discriminate.
  intros H. exists a, w1. split; [reflexivity|exact H].
Qed.

Lemma usage_leaves {A : Type} w (a : A) w' : usage w <> (Next a, w').
Proof. discriminate. Qed.

Lemma initial_configured : configured initial_config.
Proof. exists 32. repeat split; reflexivity || lia. Qed.

Lemma handle_option_configured env opt c w c' w' :
  configured c ->
  handle_option env opt c w = (Next c', w') ->
  configured c'.
Proof.
  intros Hc. destruct opt as [| | |num trailing|]; cbn [handle_option].
  - intros H. exfalso. exact (usage_leaves _ _ _ H).
  - destruct (thp_state_enabled env); [|discriminate].
    intros H. injection H as <- _. exact Hc.
  - intros H. injection H as <- _. exact Hc.
  - destruct (trailing || (128 <? Z.of_N num)) eqn:E.
    + intros H. exfalso. exact (usage_leaves _ _ _ H).
    + intros H. injection H as <- _.
      apply orb_false_iff in E as [_ E]. apply Z.ltb_ge in E.
      assert (Word.wrap (Z.of_N num * 1024 * 1024 * 1024) = Z.of_N num * 2 ^ 30)
        as Hsize.
      { rewrite wrap_small; [lia|]. unfold Word.u64, Word.ULONG_MODULUS. lia. }
      exists (Z.of_N num). cbn [arraySize endIdx]. rewrite Hsize.
      split; [lia|]. split; [reflexivity|].
      unfold sizeof_double.
      replace (Z.of_N num * 2 ^ 30) with (Z.of_N num * 2 ^ 27 * 8) by lia.
      apply Z.div_mul. lia.
  - intros H. exfalso. exact (usage_leaves _ _ _ H).
Qed.

Lemma getopt_loop_configured env os : forall c w c' w',
  configured c ->
  getopt_loop env os c w = (Next c', w') ->
  configured c'.
Proof.
  induction os as [|opt os IH]; intros c w c' w' Hc H.
  - injection H as <- _. exact Hc.
  - cbn [getopt_loop] in H. apply bind_next in H as (c1 & w1 & H1 & H2).
    eapply IH; [|exact H2]. eapply handle_option_configured; eassumption.
Qed.

(** The product with the double [0.03], cut to an integer, is the exact
    three percent for every size of whole GiB up to 128. *)
Lemma requested_count_GiB num :
  0 <= num <= 128 ->
  requested_count (num * 2 ^ 27) = Some (three_percent (num * 2 ^ 27)).
Proof.
  intros H.
  assert (forallb (fun n =>
            match requested_count (Z.of_nat n * 2 ^ 27) with
            | Some v => v =? three_percent (Z.of_nat n * 2 ^ 27)
            | None => false
            end) (seq 0 129) = true) as Hall by (vm_compute; reflexivity).
  rewrite forallb_forall in Hall.
  specialize (Hall (Z.to_nat num)).
  rewrite Z2Nat.id in Hall by lia.
  destruct (requested_count (num * 2 ^ 27)) as [v|].
  - f_equal. apply Z.eqb_eq, Hall, in_seq. lia.
  - discriminate Hall. apply in_seq. lia.
Qed.

(** The initialization loop stores to the indices from [i] on, one
    after the other, and leaves the value of each index in its slot. *)
Lemma init_loop_spec todo : forall i array stored,
  0 <= i -> (Z.to_nat i + todo <= length array)%nat ->
  exists array',
    init_loop todo i array stored
    = Some (array', stored ++ seqZ i (Z.of_nat todo))
    /\ length array' = length array
    /\ (forall j, i <= j < i + Z.of_nat todo ->
                  array' !! Z.to_nat j = Some (init_value j))
    /\ (forall k, (k < Z.to_nat i)%nat -> array' !! k = array !! k).
Proof.
  induction todo as [|todo IH]; intros i array stored Hi Hlen.
  - exists array. cbn [init_loop]. rewrite seqZ_nil, app_nil_r by lia.
    split; [reflexivity|]. split; [reflexivity|].
    split; [intros j Hj; lia|reflexivity].
  - cbn [init_loop].
    assert (Nat.ltb (Z.to_nat i) (length array) = true) as ->
      by (apply Nat.ltb_lt; lia).
    destruct (IH (i + 1) (<[Z.to_nat i := init_value i]> array) (stored ++ [i]))
      as (array' & Hrun & Hlen' & Hnew & Hold).
    { lia. }
    { rewrite length_insert. lia. }
    exists array'. split; [|split; [|split]].
    + rewrite Hrun, <- app_assoc. do 2 f_equal.
      rewrite (seqZ_cons i (Z.of_nat (S todo))) by lia.
      cbn [app]. do 3 f_equal; lia.
    + rewrite Hlen'. apply length_insert.
    + intros j Hj. destruct (Z.eq_dec j i) as [->|Hne].
      * rewrite Hold by lia. apply list_lookup_insert_eq. lia.
      * apply Hnew. lia.
    + intros k Hk. rewrite Hold by lia. apply list_lookup_insert_ne. lia.
Qed.

(** The access loop adds the slots the indices designate, in the order
    of the indices. *)
Lemma access_loop_spec indices : forall array acc,
  Forall (fun u => (Z.to_nat u < length array)%nat) indices ->
  access_loop indices array acc
  = Some (fold_left Double.add (map (arena_at array) indices) acc).
Proof.
  induction indices as [|u indices IH]; intros array acc Hall; [reflexivity|].
  inversion Hall as [|? ? Hu Hall']; subst.
  destruct (lookup_lt_is_Some_2 array (Z.to_nat u) Hu) as [x Hx].
  assert (arena_at array u = x) as Hat
    by (unfold arena_at; rewrite Hx; reflexivity).
  cbn [access_loop map fold_left]. rewrite Hx, Hat. apply IH. exact Hall'.
Qed.

Lemma init_loop_arena n :
  0 <= n ->
  exists array,
    init_loop (Z.to_nat n) 0 (replicate (Z.to_nat n) Double.zero) []
    = Some (array, seqZ 0 n)
    /\ length array = Z.to_nat n
    /\ (forall i, 0 <= i < n -> array !! Z.to_nat i = Some (init_value i)).
Proof.
  intros Hn.
  destruct (init_loop_spec (Z.to_nat n) 0
                           (replicate (Z.to_nat n) Double.zero) [])
    as (array & Hrun & Hlen & Hnew & _).
  { lia. }
  { rewrite length_replicate. cbn. lia. }
  exists array. rewrite Z2Nat.id in Hrun, Hnew by lia.
  rewrite length_replicate in Hlen.
  split; [exact Hrun|]. split; [exact Hlen|]. intros i Hi. apply Hnew. lia.
Qed.

(** A run of the array part that gets its memory, and its advice when it
    asks for it: what it does, and the value it reports. *)
Lemma benchmark_completes env c indices w :
  mmap_succeeds env (arraySize c) (hugetlb c) = true ->
  (thp c = true -> madvise_succeeds env = true) ->
  0 <= endIdx c -> endIdx c = arraySize c / sizeof_double ->
  Forall (fun u => 0 <= u < endIdx c) indices ->
  benchmark env c indices w
  = (Exit 0,
     say_all ([Mmap (arraySize c) (hugetlb c) true]
              ++ (if thp c then [Madvise (arraySize c) true] else [])
              ++ [InitializingArray; InitTook; AddingTook;
                  ResultIs (left_to_right_sum (map init_value indices));
                  Munmap (arraySize c)]) w).
Proof.
  intros Hmmap Hadv Hend Hsize Hall.
  destruct (init_loop_arena (endIdx c) Hend) as (array & Hinit & Hlen & Hval).
  assert (access_loop indices array Double.zero
          = Some (left_to_right_sum (map init_value indices))) as Hacc.
  { rewrite access_loop_spec.
    - unfold left_to_right_sum. do 2 f_equal. apply map_ext_in.
      intros u Hu. rewrite Forall_forall in Hall.
      unfold arena_at. rewrite Hval; [reflexivity|].
      apply Hall, list_elem_of_In, Hu.
    - eapply Forall_impl; [exact Hall|]. cbn. intros u Hu. lia. }
  unfold benchmark, bind, sys_mmap. rewrite Hmmap, <- Hsize.
  destruct (thp c) eqn:Hthp.
  - unfold sys_madvise. rewrite (Hadv eq_refl). cbn [negb].
    unfold emit, lift. rewrite Hinit. cbn [fst]. rewrite Hacc.
    unfold sys_munmap, emit, exit, say, say_all. cbn.
    rewrite <- !app_assoc. reflexivity.
  - unfold ret, emit, lift. rewrite Hinit. cbn [fst]. rewrite Hacc.
    unfold sys_munmap, emit, exit, say, say_all. cbn.
    rewrite <- !app_assoc. reflexivity.
Qed.

(** A run that asks for the advice and does not get it. *)
Lemma benchmark_advice_refused env c indices w :
  mmap_succeeds env (arraySize c) (hugetlb c) = true ->
  thp c = true -> madvise_succeeds env = false ->
  benchmark env c indices w
  = (Exit 1,
     say_all [Mmap (arraySize c) (hugetlb c) true;
              Madvise (arraySize c) false; MadviseFailed] w).
Proof.
  intros Hmmap Hthp Hadv.
  unfold benchmark, bind, sys_mmap. rewrite Hmmap, Hthp.
  unfold sys_madvise. rewrite Hadv. cbn [negb].
  unfold emit, exit, say, say_all. cbn. rewrite <- !app_assoc. reflexivity.
Qed.

Lemma getopt_loop_passes env pre : forall c w,
  Forall (fun opt => passes opt = true) pre ->
  exists c', forall rest,
    getopt_loop env (pre ++ rest) c w = getopt_loop env rest c' w.
Proof.
  induction pre as [|opt pre IH]; intros c w Hall.
  - exists c. reflexivity.
  - inversion Hall as [|? ? Hopt Hall']; subst.
    assert (exists c1, handle_option env opt c w = (Next c1, w)) as [c1 H1].
    { destruct opt as [| | |num trailing|]; try discriminate Hopt.
      - eexists. reflexivity.
      - cbn [passes] in Hopt. apply negb_true_iff in Hopt.
        cbn [handle_option]. rewrite Hopt. eexists. reflexivity. }
    destruct (IH c1 w Hall') as [c' Hc'].
    exists c'. intros rest. cbn [app getopt_loop]. unfold bind at 1.
    rewrite H1. apply Hc'.
Qed.

Lemma thp_never_disabled mmap_ok madvise_ok :
  thp_state_enabled
    (mkEnv (Some (line "always madvise [never]")) mmap_ok madvise_ok)
  = false.
Proof. reflexivity. Qed.

Lemma thp_unreadable_disabled env :
  thp_unreadable env -> thp_state_enabled env = false.
Proof.
  unfold thp_state_enabled. intros [-> | (ifs & -> & ->)]; reflexivity.
Qed.

(** [main] looks at the kernel only through the three answers. *)
Lemma handle_option_env env env' opt c w :
  thp_state_enabled env = thp_state_enabled env' ->
  handle_option env opt c w = handle_option env' opt c w.
Proof.
  intros H. destruct opt; cbn [handle_option]; rewrite ?H; reflexivity.
Qed.

Lemma getopt_loop_env env env' os : forall c w,
  thp_state_enabled env = thp_state_enabled env' ->
  getopt_loop env os c w = getopt_loop env' os c w.
Proof.
  induction os as [|opt os IH]; intros c w H; [reflexivity|].
  cbn [getopt_loop]. unfold bind.
  rewrite (handle_option_env env env' opt c w H).
  destruct (handle_option env' opt c w) as [[c1| |] w1]; try reflexivity.
  apply IH, H.
Qed.

Lemma benchmark_env env env' c indices w :
  mmap_succeeds env = mmap_succeeds env' ->
  madvise_succeeds env = madvise_succeeds env' ->
  benchmark env c indices w = benchmark env' c indices w.
Proof.
  intros H1 H2. unfold benchmark, bind, sys_mmap, sys_madvise.
  rewrite H1, H2. reflexivity.
Qed.

Lemma bind_ext {A B : Type} (p p' : Prog A) (k k' : A -> Prog B) w :
  (forall w0, p w0 = p' w0) ->
  (forall a w0, k a w0 = k' a w0) ->
  bind p k w = bind p' k' w.
Proof.
  intros Hp Hk. unfold bind. rewrite Hp.
  destruct (p' w) as [[a| |] w1]; [apply Hk|reflexivity|reflexivity].
Qed.

Lemma main_env env env' args w :
  thp_state_enabled env = thp_state_enabled env' ->
  mmap_succeeds env = mmap_succeeds env' ->
  madvise_succeeds env = madvise_succeeds env' ->
  main env args w = main env' args w.
Proof.
  intros H0 H1 H2. unfold main.
  apply bind_ext; [intros; apply getopt_loop_env, H0|]. intros c w1.
  apply bind_ext; [reflexivity|]. intros _ w2.
  apply bind_ext; [reflexivity|]. intros numIndices w3.
  apply bind_ext; [reflexivity|]. intros _ w4.
  apply bind_ext; [reflexivity|]. intros r w5.
  destruct (fst r); [apply benchmark_env; assumption|reflexivity].
Qed.

(** No run of [main] reaches undefined behaviour: the count is a value
    of [unsigned long], and every store and every load is inside the
    array. *)
Lemma getopt_loop_defined env os : forall c w,
  fst (getopt_loop env os c w) <> Undefined.
Proof.
  induction os as [|opt os IH]; intros c w; [discriminate|].
  cbn [getopt_loop]. unfold bind.
  destruct (handle_option env opt c w) as [[c1| |] w1] eqn:E.
  - apply IH.
  - discriminate.
  - exfalso. destruct opt as [| | |num trailing|]; cbn [handle_option] in E;
      try discriminate E.
    + destruct (thp_state_enabled env); discriminate E.
    + destruct (trailing || (128 <? Z.of_N num)); discriminate E.
Qed.

Lemma benchmark_defined env c indices w :
  0 <= endIdx c -> endIdx c = arraySize c / sizeof_double ->
  Forall (fun u => 0 <= u < endIdx c) indices ->
  fst (benchmark env c indices w) <> Undefined.
Proof.
  intros Hend Hsize Hall.
  destruct (mmap_succeeds env (arraySize c) (hugetlb c)) eqn:Hm.
  - destruct (thp c) eqn:Hthp; [destruct (madvise_succeeds env) eqn:Ha|].
    + rewrite benchmark_completes; try assumption; [discriminate|auto].
    + rewrite benchmark_advice_refused; try assumption. discriminate.
    + rewrite benchmark_completes; try assumption; [discriminate|].
      rewrite Hthp. discriminate.
  - unfold benchmark, bind, sys_mmap. rewrite Hm.
    destruct (hugetlb c); discriminate.
Qed.

(** X1.  No run of [main], whatever the command line, the index file and
    the answers of the kernel, has undefined behaviour: the count is
    always a value of [unsigned long], the initialization stores only
    inside the mapped array, and every index the access loop uses, read
    from the file or drawn, is inside it. *)
Lemma main_defined env args w : fst (main env args w) <> Undefined.
Proof.
  unfold main. unfold bind at 1.
  pose proof (getopt_loop_defined env (opts args) initial_config w) as Hdef.
  destruct (getopt_loop env (opts args) initial_config w) as [[c| |] w1] eqn:E;
    [|discriminate|exfalso; apply Hdef; reflexivity].
  destruct (getopt_loop_configured env _ _ _ _ _ initial_configured E)
    as (num & Hnum & Hsize & Hend).
  unfold bind at 1.
  destruct ((hugetlb c && thp c) || operands args); [discriminate|].
  cbn [ret]. unfold bind at 1.
  rewrite Hend, requested_count_GiB by exact Hnum. rewrite <- Hend.
  cbn [lift]. unfold bind at 1. cbn [emit]. unfold bind at 1.
  unfold call_readIndices.
  destruct (readIndices [] (endIdx c) (three_percent (endIdx c))
                        (say GettingIndices w1)) as [[ok indices] w2] eqn:Hr.
  cbn [fst snd]. destruct ok; [|discriminate].
  apply benchmark_defined.
  - lia.
  - rewrite Hsize, Hend. unfold sizeof_double.
    replace (num * 2 ^ 30) with (num * 2 ^ 27 * 8) by lia.
    symmetry. apply Z.div_mul. lia.
  - eapply readIndices_in_range; [| |exact Hr].
    + unfold Word.u64, Word.ULONG_MODULUS. lia.
    + intros ->. reflexivity.
Qed.

(** * Properties of the runner *)

(** C8.  For every array size the options can select, the element count
    is the size divided by the size of a double, and the number of
    indices the runner asks for is the floor of three hundredths of it. *)
Theorem requested_count_exact env args w c w' :
  getopt_loop env (opts args) initial_config w = (Next c, w') ->
  endIdx c = arraySize c / sizeof_double
  /\ requested_count (endIdx c) = Some (three_percent (endIdx c)).
Proof.
  intros H.
  destruct (getopt_loop_configured env (opts args) _ _ _ _
              initial_configured H) as (num & Hnum & Hsize & Hend).
  split.
  - rewrite Hsize, Hend. unfold sizeof_double.
    replace (num * 2 ^ 30) with (num * 2 ^ 27 * 8) by lia.
    symmetry. apply Z.div_mul. lia.
  - rewrite Hend. apply requested_count_GiB. exact Hnum.
Qed.

Lemma requested_count_exact_witness :
  endIdx (mkConfig (2 ^ 30) (2 ^ 27) true false)
  = arraySize (mkConfig (2 ^ 30) (2 ^ 27) true false) / sizeof_double
  /\ requested_count (2 ^ 27) = Some (three_percent (2 ^ 27)).
Proof.
  apply (requested_count_exact (mkEnv None (fun _ _ => true) true)
           (mkArgs [OptT; OptS 1 false] false)
           (mkWorld None true Z.of_nat [])
           (mkConfig (2 ^ 30) (2 ^ 27) true false)
           (mkWorld None true Z.of_nat [])).
  reflexivity.
Defined.



(** C7.  The access loop yields the sum, taken from the left, of the
    arena slots at the indices in their order.  Two complete runs over
    the same index set and element count report the same value, whatever
    their page modes. *)
Theorem accumulated_value env1 env2 c1 c2 indices w1 w2 :
  served env1 c1 -> served env2 c2 ->
  endIdx c1 = endIdx c2 ->
  Forall (fun u => 0 <= u < endIdx c1) indices ->
  exists array v,
    init_loop (Z.to_nat (endIdx c1)) 0
              (replicate (Z.to_nat (endIdx c1)) Double.zero) []
    = Some (array, seqZ 0 (endIdx c1))
    /\ access_loop indices array Double.zero = Some v
    /\ v = left_to_right_sum (map (arena_at array) indices)
    /\ benchmark env1 c1 indices w1 = (Exit 0, say_all (run_events c1 v) w1)
    /\ benchmark env2 c2 indices w2 = (Exit 0, say_all (run_events c2 v) w2).
Proof.
  intros (Hm1 & Ha1 & He1 & Hs1) (Hm2 & Ha2 & He2 & Hs2) Heq Hall.
  destruct (init_loop_arena (endIdx c1) He1) as (array & Hinit & Hlen & Hval).
  assert (Forall (fun u => (Z.to_nat u < length array)%nat) indices) as Hin.
  { eapply Forall_impl; [exact Hall|]. cbn. intros u Hu. lia. }
  assert (map (arena_at array) indices = map init_value indices) as Hmap.
  { apply map_ext_in. intros u Hu. rewrite Forall_forall in Hall.
    unfold arena_at. rewrite Hval; [reflexivity|].
    apply Hall, list_elem_of_In, Hu. }
  exists array, (left_to_right_sum (map (arena_at array) indices)).
  split; [exact Hinit|].
  split; [apply access_loop_spec, Hin|]. split; [reflexivity|].
  rewrite Hmap. split.
  - apply benchmark_completes; assumption.
  - apply benchmark_completes; try assumption. rewrite <- Heq. exact Hall.
Qed.

Lemma accumulated_value_witness :
  let env := mkEnv None (fun _ _ => true) true in
  let c1 := mkConfig 24 3 false false in
  let c2 := mkConfig 24 3 false true in
  let w := mkWorld None true Z.of_nat [] in
  exists array v,
    init_loop 3 0 (replicate 3 Double.zero) [] = Some (array, seqZ 0 3)
    /\ access_loop [2; 0; 2] array Double.zero = Some v
    /\ v = left_to_right_sum (map (arena_at array) [2; 0; 2])
    /\ benchmark env c1 [2; 0; 2] w = (Exit 0, say_all (run_events c1 v) w)
    /\ benchmark env c2 [2; 0; 2] w = (Exit 0, say_all (run_events c2 v) w).
Proof.
  cbn zeta.
  apply (accumulated_value (mkEnv None (fun _ _ => true) true)
           (mkEnv None (fun _ _ => true) true)
           (mkConfig 24 3 false false) (mkConfig 24 3 false true)
           [2; 0; 2]).
  - repeat split; cbn; lia.
  - repeat split; cbn; lia.
  - reflexivity.
  - repeat constructor; cbn; lia.
Defined.

(** C4 at the failing input: the default size with [-m], transparent
    huge pages enabled, a mapping that succeeds and an advice that is
    refused.  The run leaves with status 1 right after the refusal: the
    region is mapped and no [munmap] follows. *)
Theorem advice_refused_no_munmap :
  let env := mkEnv (Some (line "always [madvise] never")) (fun _ _ => true)
                   false in
  let run := main env (mkArgs [OptM] false) (mkWorld None true Z.of_nat []) in
  fst run = Exit 1
  /\ printed (snd run)
     = [GettingIndices; GeneratedFile; Mmap (2 ^ 35) false true;
        Madvise (2 ^ 35) false; MadviseFailed]
  /\ forall size, ~ In (Munmap size) (printed (snd run)).
Proof.
  cbn zeta.
  set (env := mkEnv _ _ _). set (w := mkWorld _ _ _ _).
  set (c := mkConfig (2 ^ 35) (2 ^ 32) false true).
  assert (getopt_loop env [OptM] initial_config w = (Next c, w)) as Hopt
    by reflexivity.
  assert (requested_count (endIdx c) = Some 128849018) as Hcount
    by (vm_compute; reflexivity).
  assert (exists indices w1,
             main env (mkArgs [OptM] false) w
             = benchmark env c indices w1
             /\ printed w1 = [GettingIndices; GeneratedFile]) as Hmain.
  { unfold main. unfold bind at 1. cbn [opts]. rewrite Hopt.
    unfold bind at 1. cbn [hugetlb thp c andb orb operands ret].
    unfold bind at 1. rewrite Hcount. cbn [lift].
    unfold bind at 1. cbn [emit].
    unfold bind at 1. unfold call_readIndices, readIndices.
    cbn [say idx_file w]. rewrite generateIndices_writable by reflexivity.
    cbn [fst snd]. eexists. eexists. split; [reflexivity|reflexivity]. }
  destruct Hmain as (indices & w1 & -> & Hw1).
  rewrite benchmark_advice_refused by reflexivity.
  cbn [fst snd say_all printed]. rewrite Hw1.
  split; [reflexivity|]. split; [reflexivity|].
  intros size Hin. cbn in Hin.
  repeat (destruct Hin as [Hin|Hin]; [discriminate Hin|]). exact Hin.
Qed.

(** C9.  When the option loop comes to [-m] and the state file of
    transparent huge pages cannot be opened or has no first line, the
    program prints the explanation and leaves with status 1; nothing is
    mapped.  It does what it does when the file says that the feature is
    disabled. *)
Theorem thp_unreadable_fails_closed env args w pre post :
  thp_unreadable env ->
  opts args = pre ++ OptM :: post ->
  Forall (fun opt => passes opt = true) pre ->
  main env args w = (Exit 1, say ThpNotEnabled w)
  /\ forall disabled,
       thp_state_enabled
         (mkEnv (Some disabled) (mmap_succeeds env) (madvise_succeeds env))
       = false ->
       main (mkEnv (Some disabled) (mmap_succeeds env) (madvise_succeeds env))
            args w
       = main env args w.
Proof.
  intros Hun Hopts Hpre.
  pose proof (thp_unreadable_disabled env Hun) as Hoff.
  split.
  - unfold main. unfold bind at 1. rewrite Hopts.
    destruct (getopt_loop_passes env pre initial_config w Hpre) as [c' ->].
    cbn [getopt_loop handle_option]. rewrite Hoff. reflexivity.
  - intros disabled Hdis. apply main_env; [|reflexivity|reflexivity].
    rewrite Hdis, Hoff. reflexivity.
Qed.

Lemma thp_unreadable_fails_closed_witness :
  let env := mkEnv (Some []) (fun _ _ => true) true in
  let args := mkArgs [OptT; OptS 1 false; OptM; OptH] false in
  let w := mkWorld None true Z.of_nat [] in
  main env args w = (Exit 1, say ThpNotEnabled w)
  /\ forall disabled,
       thp_state_enabled
         (mkEnv (Some disabled) (mmap_succeeds env) (madvise_succeeds env))
       = false ->
       main (mkEnv (Some disabled) (mmap_succeeds env) (madvise_succeeds env))
            args w
       = main env args w.
Proof.
  cbn zeta.
  apply (thp_unreadable_fails_closed
           (mkEnv (Some []) (fun _ _ => true) true)
           (mkArgs [OptT; OptS 1 false; OptM; OptH] false)
           (mkWorld None true Z.of_nat [])
           [OptT; OptS 1 false] [OptH]).
  - right. exists []. split; reflexivity.
  - reflexivity.
  - repeat constructor.
Defined.


(** * Further facts about the index cache *)

Lemma index_file_app l1 l2 :
  index_file (l1 ++ l2) = index_file l1 ++ index_file l2.
Proof. unfold index_file. rewrite map_app, concat_app. reflexivity. Qed.

(** [strtol] on a printed line in general: a number above [LONG_MAX] is
    read as [LONG_MAX]. *)
Lemma strtol_printed_line_u64 x :
  Word.u64 x ->
  strtol (print_lu_line x) = (Z.min Word.LONG_MAX x, [NL]).
Proof.
  intros Hu.
  destruct (print_lu_scan x Hu) as (ds & Hp & Hne & Hlen & Hall & Hscan).
  unfold print_lu_line. rewrite Hp.
  destruct ds as [|c ds]; [congruence|].
  inversion Hall as [|? ? [Hc _] _]; subst.
  unfold strtol. cbn [app skip_space]. rewrite (digit_not_space c Hc).
  unfold scan_sign. destruct (digit_not_sign c Hc) as [-> ->].
  rewrite Hc.
  change (c :: ds ++ [NL]) with ((c :: ds) ++ [NL]).
  rewrite Hscan. cbn [scan_digits]. change (isdigit NL) with false. cbv iota.
  f_equal; f_equal; lia.
Qed.

Lemma only_invalid_lines_cache ms :
  Forall (fun m => exists buf, m = InvalidLine buf) ms ->
  forallb cache_event ms = true.
Proof.
  induction 1 as [|m ms [buf ->] _ IH]; [reflexivity|]. cbn. exact IH.
Qed.

Section ReadPrefix.

Variables endIdx numIndices : Z.

(** One turn of the read loop on a printed line. *)
Lemma read_loop_printed_step x rest fuel st :
  0 <= x < endIdx -> x <= Word.LONG_MAX ->
  read_loop (S fuel) endIdx numIndices (print_lu_line x ++ rest) st
  = let st' := mkReading (rd_indices st ++ [x]) (Z.max (rd_maxIdx st) x)
                         (rd_printed st) in
    if numIndices <? Z.of_nat (length (rd_indices st ++ [x])) then st'
    else read_loop fuel endIdx numIndices rest st'.
Proof.
  intros Hx Hmax.
  assert (Word.u64 x) as Hu.
  { unfold Word.u64, Word.ULONG_MODULUS, Word.LONG_MAX in *. lia. }
  cbn [read_loop]. rewrite fgets_printed_line by exact Hu.
  rewrite strtol_printed_line by lia.
  assert (invalid_line x [NL] endIdx = false) as ->.
  { unfold invalid_line. cbn [deref]. rewrite Ascii.eqb_refl.
    cbn [negb andb orb]. rewrite (wrap_small x Hu).
    apply orb_false_iff. split; [apply Z.ltb_ge|apply Z.leb_gt]; lia. }
  rewrite (wrap_small x Hu). reflexivity.
Qed.

(** The read loop on a file that starts with printed indices, while the
    vector has room for them. *)
Lemma read_loop_printed_prefix l : forall fuel st rest,
  well_formed endIdx l ->
  Z.of_nat (length (rd_indices st) + length l) <= numIndices ->
  (length (index_file l ++ rest) <= fuel)%nat ->
  read_loop fuel endIdx numIndices (index_file l ++ rest) st
  = read_loop (length rest) endIdx numIndices rest
      (mkReading (rd_indices st ++ l) (max_seen (rd_maxIdx st) l)
                 (rd_printed st)).
Proof.
  induction l as [|x l IH]; intros fuel st rest Hall Hroom Hfuel.
  - change (index_file [] ++ rest) with rest in *.
    rewrite (read_loop_fuel endIdx numIndices fuel (length rest))
      by (exact Hfuel || lia).
    destruct st. cbn. rewrite app_nil_r. reflexivity.
  - inversion Hall as [|? ? [Hx Hmax] Hall']; subst.
    rewrite index_file_cons, <- app_assoc in *.
    rewrite length_app in Hfuel.
    pose proof (print_lu_line_nonempty x).
    destruct fuel as [|fuel]; [lia|].
    rewrite read_loop_printed_step by assumption. cbn zeta.
    assert ((numIndices <? Z.of_nat (length (rd_indices st ++ [x]))) = false)
      as ->.
    { apply Z.ltb_ge. rewrite length_app. cbn [length] in *. lia. }
    rewrite IH; cbn [rd_indices rd_maxIdx rd_printed].
    + rewrite <- app_assoc. reflexivity.
    + exact Hall'.
    + rewrite length_app. cbn [length] in *. lia.
    + lia.
Qed.

End ReadPrefix.

(** The read loop on a file of more printed indices than asked for stops
    one index past the count. *)
Lemma read_loop_too_big bound count l1 x l2 :
  well_formed bound (l1 ++ x :: l2) -> Z.of_nat (length l1) = count ->
  read_loop (length (index_file (l1 ++ x :: l2))) bound count
            (index_file (l1 ++ x :: l2)) (mkReading [] 0 [])
  = mkReading (l1 ++ [x]) (Z.max (max_seen 0 l1) x) [].
Proof.
  intros Hall Hlen.
  unfold well_formed in Hall. apply Forall_app in Hall as [Hall1 Hall2].
  inversion Hall2 as [|? ? [Hx Hmax] _]; subst.
  rewrite index_file_app, index_file_cons.
  rewrite read_loop_printed_prefix; cbn [rd_indices rd_maxIdx rd_printed app].
  - rewrite length_app.
    pose proof (print_lu_line_nonempty x).
    destruct (length (print_lu_line x) + length (index_file l2))%nat
      as [|fuel] eqn:Hf; [lia|].
    rewrite read_loop_printed_step by assumption. cbn zeta.
    cbn [rd_indices rd_maxIdx rd_printed].
    assert ((Z.of_nat (length l1) <? Z.of_nat (length (l1 ++ [x]))) = true)
      as ->; [|reflexivity].
    apply Z.ltb_lt. rewrite length_app. cbn [length]. lia.
  - exact Hall1.
  - cbn [length]. lia.
  - lia.
Qed.

(** What a call of [generateIndices] prints: one line. *)
Lemma generateIndices_printed indices bound count w :
  exists e,
    cache_event e = true
    /\ printed (snd (generateIndices indices bound count w))
       = printed w ++ [e].
Proof.
  destruct (idx_writable w) eqn:Hw.
  - rewrite generateIndices_writable by exact Hw.
    exists GeneratedFile. split; reflexivity.
  - rewrite generateIndices_readonly by exact Hw.
    exists CantOpenForWriting. split; reflexivity.
Qed.

(** What a call of [readIndices] prints. *)
Lemma readIndices_printed bound count w :
  exists ms,
    printed (snd (readIndices [] bound count w)) = printed w ++ ms
    /\ forallb cache_event ms = true.
Proof.
  unfold readIndices. destruct (idx_file w) as [stream|].
  - destruct (read_loop_spec bound count (length stream) stream
                             (mkReading [] 0 []))
      as (k & ms & _ & _ & _ & H4 & H5 & _).
    cbn zeta in *. cbn [rd_printed app] in H4.
    apply only_invalid_lines_cache in H5.
    destruct (stale bound count _).
    + destruct (generateIndices_printed [] bound count
                  (say InvalidFileRegenerating
                     (say_all (rd_printed
                                 (read_loop (length stream) bound count stream
                                            (mkReading [] 0 []))) w)))
        as (e & He & ->).
      exists (ms ++ [InvalidFileRegenerating; e]).
      cbn [say say_all printed]. rewrite H4, <- !app_assoc.
      split; [reflexivity|].
      rewrite forallb_app, H5. cbn. rewrite He. reflexivity.
    + exists ms. cbn [snd say_all printed]. rewrite H4.
      split; [reflexivity|exact H5].
  - destruct (generateIndices_printed [] bound count w) as (e & He & ->).
    exists [e]. split; [reflexivity|]. cbn. rewrite He. reflexivity.
Qed.


(** * Further properties of the index cache *)

(** X2.  A successful load hands out exactly [count] indices, each an
    index of the array, whether they were read or drawn. *)
Theorem loaded_set_size_and_range w bound count res w' :
  Word.u64 bound -> 0 <= count -> (bound = 0 -> count = 0) ->
  readIndices [] bound count w = (true, res, w') ->
  Z.of_nat (length res) = count /\ Forall (fun u => 0 <= u < bound) res.
Proof.
  intros Hu Hc H0 Hload.
  split; [|exact (readIndices_in_range w bound count res w' Hu H0 Hload)].
  unfold readIndices in Hload. destruct (idx_file w) as [stream|].
  - destruct (stale bound count _) eqn:Hs.
    + generate_cases Hload. rewrite drawn_length. lia.
    + injection Hload as <- _. unfold stale in Hs.
      apply orb_false_iff in Hs as [_ Hs].
      apply negb_false_iff, Z.eqb_eq in Hs. exact Hs.
  - generate_cases Hload. rewrite drawn_length. lia.
Qed.

Lemma loaded_set_size_and_range_witness :
  Z.of_nat (length [3; 0]) = 2 /\ Forall (fun u => 0 <= u < 10) [3; 0].
Proof.
  apply (loaded_set_size_and_range
           (mkWorld (Some (line "3" ++ line "0")) false Z.of_nat [])
           10 2 [3; 0]
           (mkWorld (Some (line "3" ++ line "0")) false Z.of_nat [])).
  - unfold Word.u64, Word.ULONG_MODULUS. lia.
  - lia.
  - lia.
  - reflexivity.
Defined.



(** X4.  An invalid line among the first [count] buffers of the file
    always leads to regeneration: the load is the generation run on the
    emptied vector. *)
Theorem corrupt_line_within_count_regenerated w stream bound count
    (k : nat) buf :
  idx_file w = Some stream ->
  buffers stream !! k = Some buf ->
  Z.of_nat k < count ->
  buffer_invalid bound buf = true ->
  exists ms,
    readIndices [] bound count w
    = generateIndices [] bound count
        (say InvalidFileRegenerating (say_all ms w)).
Proof.
  intros Hf Hk Hlt Hbad. unfold readIndices. rewrite Hf.
  rewrite (invalid_within_count_stale stream bound count k buf Hk Hlt Hbad).
  eexists. reflexivity.
Qed.

Lemma corrupt_line_within_count_regenerated_witness :
  let w := mkWorld (Some (line "1" ++ line "-4" ++ line "2")) true
                   Z.of_nat [] in
  exists ms,
    readIndices [] 10 2 w
    = generateIndices [] 10 2 (say InvalidFileRegenerating (say_all ms w)).
Proof.
  cbn zeta.
  apply (corrupt_line_within_count_regenerated _
           (line "1" ++ line "-4" ++ line "2") 10 2 1 (line "-4"));
    reflexivity.
Defined.

(** X5.  A file cut short, with fewer buffers than [count], is never
    accepted. *)
Theorem truncated_file_regenerated w stream bound count :
  idx_file w = Some stream ->
  Z.of_nat (length (buffers stream)) < count ->
  exists ms,
    readIndices [] bound count w
    = generateIndices [] bound count
        (say InvalidFileRegenerating (say_all ms w)).
Proof.
  intros Hf Hshort. unfold readIndices. rewrite Hf.
  destruct (read_loop_spec bound count (length stream) stream
                           (mkReading [] 0 []))
    as (k & ms & H1 & _).
  cbn zeta in H1. cbn [rd_indices app] in H1. fold (buffers stream) in H1.
  assert (stale bound count
            (read_loop (length stream) bound count stream (mkReading [] 0 []))
          = true) as ->; [|eexists; reflexivity].
  unfold stale. apply orb_true_iff. right.
  apply negb_true_iff, Z.eqb_neq.
  rewrite H1, length_map, length_take. lia.
Qed.

Lemma truncated_file_regenerated_witness :
  let w := mkWorld (Some (line "1" ++ line "2")) true Z.of_nat [] in
  exists ms,
    readIndices [] 10 3 w
    = generateIndices [] 10 3 (say InvalidFileRegenerating (say_all ms w)).
Proof.
  cbn zeta.
  apply (truncated_file_regenerated _ (line "1" ++ line "2") 10 3).
  - reflexivity.
  - vm_compute. reflexivity.
Defined.

(** X6.  A file of printed indices is accepted only for the count it was
    written for: with any other count, smaller or larger, the load
    regenerates. *)
Theorem other_count_regenerated w bound count l :
  well_formed bound l -> 0 <= count ->
  idx_file w = Some (index_file l) ->
  Z.of_nat (length l) <> count ->
  readIndices [] bound count w
  = generateIndices [] bound count
      (say InvalidFileRegenerating (say_all [] w)).
Proof.
  intros Hall Hc Hf Hne. unfold readIndices. rewrite Hf.
  destruct (Z_lt_dec (Z.of_nat (length l)) count) as [Hlt|Hge].
  - rewrite read_loop_index_file; cbn [rd_indices rd_maxIdx rd_printed app].
    + assert (stale bound count (mkReading l (max_seen 0 l) []) = true) as ->;
        [|reflexivity].
      unfold stale. apply orb_true_iff. right.
      apply negb_true_iff, Z.eqb_neq. exact Hne.
    + exact Hall.
    + cbn [length]. lia.
    + lia.
  - pose proof (take_drop (Z.to_nat count) l) as Hsplit.
    destruct (drop (Z.to_nat count) l) as [|x l2] eqn:Hdrop.
    { apply (f_equal length) in Hdrop. rewrite length_drop in Hdrop.
      cbn in Hdrop. lia. }
    assert (Z.of_nat (length (take (Z.to_nat count) l)) = count) as Htake
      by (rewrite length_take; lia).
    rewrite <- Hsplit in Hall |- *.
    rewrite (read_loop_too_big bound count _ x l2 Hall Htake).
    assert (stale bound count
              (mkReading (take (Z.to_nat count) l ++ [x])
                         (Z.max (max_seen 0 (take (Z.to_nat count) l)) x) [])
            = true) as ->; [|reflexivity].
    unfold stale. apply orb_true_iff. right.
    apply negb_true_iff, Z.eqb_neq. cbn [rd_indices].
    rewrite length_app. cbn [length]. lia.
Qed.

Lemma other_count_regenerated_witness :
  let w := mkWorld (Some (index_file [4; 5; 6])) true Z.of_nat [] in
  readIndices [] 10 2 w
  = generateIndices [] 10 2 (say InvalidFileRegenerating (say_all [] w)).
Proof.
  cbn zeta.
  apply (other_count_regenerated _ 10 2 [4; 5; 6]).
  - repeat constructor; unfold Word.LONG_MAX; lia.
  - lia.
  - reflexivity.
  - cbn. lia.
Defined.

(** X7.  Round trip of the file format: a file of printed indices of the
    array whose maximum is within 10,000,000 of the bound is loaded, for
    the count it holds, as exactly these indices in order, and nothing is
    printed, written or drawn. *)
Theorem printed_file_loaded w bound l :
  Word.u64 bound -> well_formed bound l ->
  idx_file w = Some (index_file l) ->
  bound - max_seen 0 l <= 10000000 ->
  readIndices [] bound (Z.of_nat (length l)) w = (true, l, say_all [] w).
Proof.
  intros Hu Hall Hf Hgap. unfold readIndices. rewrite Hf.
  rewrite read_loop_index_file; cbn [rd_indices rd_maxIdx rd_printed app].
  - assert (stale bound (Z.of_nat (length l)) (mkReading l (max_seen 0 l) [])
            = false) as ->; [|reflexivity].
    apply stale_spec; cbn [rd_indices rd_maxIdx].
    + exact Hu.
    + unfold Word.u64 in Hu. apply max_seen_bounds; [lia|].
      eapply Forall_impl; [exact Hall|]. cbn. intros. lia.
    + split; [reflexivity|exact Hgap].
  - exact Hall.
  - cbn [length]. lia.
  - lia.
Qed.

Lemma printed_file_loaded_witness :
  let w := mkWorld (Some (index_file [7; 999; 0])) false Z.of_nat [] in
  readIndices [] 1000 3 w = (true, [7; 999; 0], say_all [] w).
Proof.
  cbn zeta.
  apply (printed_file_loaded _ 1000 [7; 999; 0]).
  - unfold Word.u64, Word.ULONG_MODULUS. lia.
  - repeat constructor; unfold Word.LONG_MAX; lia.
  - reflexivity.
  - vm_compute. discriminate.
Defined.

(** X8.  An index of [2 ^ 63] or more does not survive the file: it is
    written with [%lu] and read with [strtol] into a [long], which clamps
    it.  For a bound just above [LONG_MAX] the line is accepted, as the
    index [LONG_MAX]. *)
Theorem index_above_long_max_clamped w x bound :
  2 ^ 63 <= x < 2 ^ 64 ->
  2 ^ 63 <= bound <= 2 ^ 63 + 9999999 ->
  idx_file w = Some (print_lu_line x) ->
  readIndices [] bound 1 w = (true, [Word.LONG_MAX], say_all [] w).
Proof.
  intros Hx Hb Hf.
  assert (Word.u64 x) as Hu by (unfold Word.u64, Word.ULONG_MODULUS; lia).
  assert (Word.u64 Word.LONG_MAX) as Hm by (split; discriminate || reflexivity).
  assert (read_loop (length (print_lu_line x)) bound 1 (print_lu_line x)
                    (mkReading [] 0 [])
          = mkReading [Word.LONG_MAX] (Z.max 0 Word.LONG_MAX) []) as Hread.
  { pose proof (print_lu_line_nonempty x) as Hlen.
    destruct (length (print_lu_line x)) as [|fuel] eqn:Hfuel; [lia|].
    rewrite <- (app_nil_r (print_lu_line x)).
    unfold read_loop; fold read_loop.
    rewrite fgets_printed_line by exact Hu.
    rewrite strtol_printed_line_u64 by exact Hu.
    replace (Z.min Word.LONG_MAX x) with Word.LONG_MAX
      by (unfold Word.LONG_MAX; lia).
    assert (invalid_line Word.LONG_MAX [NL] bound = false) as ->.
    { unfold invalid_line. cbn [deref]. rewrite Ascii.eqb_refl.
      cbn [negb andb orb]. rewrite (wrap_small _ Hm).
      apply orb_false_iff. split; [reflexivity|].
      apply Z.leb_gt. unfold Word.LONG_MAX. lia. }
    rewrite (wrap_small _ Hm).
    cbn [rd_indices rd_maxIdx rd_printed app length].
    change (1 <? Z.of_nat 1) with false. cbv iota. apply read_loop_nil. }
  unfold readIndices. rewrite Hf. cbn zeta. rewrite Hread.
  assert (stale bound 1 (mkReading [Word.LONG_MAX] (Z.max 0 Word.LONG_MAX) [])
          = false) as ->; [|reflexivity].
  apply stale_spec; cbn [rd_indices rd_maxIdx length].
  - unfold Word.u64, Word.ULONG_MODULUS. lia.
  - unfold Word.LONG_MAX. lia.
  - unfold Word.LONG_MAX. lia.
Qed.

Lemma index_above_long_max_clamped_witness :
  let w := mkWorld (Some (print_lu_line (2 ^ 63 + 1))) true Z.of_nat [] in
  readIndices [] (2 ^ 63 + 2) 1 w = (true, [Word.LONG_MAX], say_all [] w).
Proof.
  cbn zeta.
  apply (index_above_long_max_clamped _ (2 ^ 63 + 1) (2 ^ 63 + 2)).
  - lia.
  - lia.
  - reflexivity.
Defined.

Lemma max_seen_zeros n : max_seen 0 (replicate n 0) = 0.
Proof. induction n as [|n IH]; [reflexivity|exact IH]. Qed.

Lemma fgets_blank rest : fgets 128 (NL :: rest) = Some ([NL], rest).
Proof. reflexivity. Qed.

Lemma strtol_blank : strtol [NL] = (0, [NL]).
Proof. reflexivity. Qed.

(** The read loop on empty lines: each is a valid line of value 0. *)
Lemma read_loop_blank_lines bound count n : forall fuel st,
  1 <= bound ->
  Z.of_nat (length (rd_indices st) + n) <= count ->
  (n <= fuel)%nat ->
  read_loop fuel bound count (replicate n NL) st
  = mkReading (rd_indices st ++ replicate n 0)
              (max_seen (rd_maxIdx st) (replicate n 0)) (rd_printed st).
Proof.
  induction n as [|n IH]; intros fuel st Hb Hroom Hfuel.
  - cbn [replicate]. rewrite read_loop_nil. destruct st. cbn.
    rewrite app_nil_r. reflexivity.
  - destruct fuel as [|fuel]; [lia|].
    cbn [replicate]. unfold read_loop; fold read_loop.
    rewrite fgets_blank, strtol_blank.
    assert (invalid_line 0 [NL] bound = false) as ->.
    { unfold invalid_line. cbn [deref]. rewrite Ascii.eqb_refl.
      cbn [negb andb orb]. apply Z.leb_gt. change (Word.wrap 0) with 0. lia. }
    change (Word.wrap 0) with 0.
    assert ((count <? Z.of_nat (length (rd_indices st ++ [0]))) = false) as ->.
    { apply Z.ltb_ge. rewrite length_app. cbn [length]. lia. }
    rewrite IH; cbn [rd_indices rd_maxIdx rd_printed].
    + rewrite <- app_assoc. reflexivity.
    + exact Hb.
    + rewrite length_app. cbn [length]. lia.
    + lia.
Qed.

(** X9.  An empty line is not an invalid line: [strtol] converts nothing,
    leaves [endPtr] at the newline and returns 0.  A file of [n] empty
    lines is accepted, for a count of [n] and a bound of up to
    10,000,000, as [n] times the index 0. *)
Theorem blank_lines_read_as_zero w bound n :
  1 <= bound <= 10000000 ->
  idx_file w = Some (replicate n NL) ->
  readIndices [] bound (Z.of_nat n) w
  = (true, replicate n 0, say_all [] w).
Proof.
  intros Hb Hf. unfold readIndices. rewrite Hf, length_replicate.
  rewrite read_loop_blank_lines; cbn [rd_indices rd_maxIdx rd_printed app].
  - rewrite max_seen_zeros.
    assert (stale bound (Z.of_nat n) (mkReading (replicate n 0) 0 []) = false)
      as ->; [|reflexivity].
    apply stale_spec; cbn [rd_indices rd_maxIdx].
    + unfold Word.u64, Word.ULONG_MODULUS. lia.
    + lia.
    + rewrite length_replicate. lia.
  - lia.
  - cbn [length]. lia.
  - lia.
Qed.

Lemma blank_lines_read_as_zero_witness :
  let w := mkWorld (Some [NL; NL; NL]) true Z.of_nat [] in
  readIndices [] 1000 3 w = (true, [0; 0; 0], say_all [] w).
Proof.
  cbn zeta. apply (blank_lines_read_as_zero _ 1000 3); [lia|reflexivity].
Defined.



(** * Further facts about [main] *)

(** The option loop over accepted options: it prints nothing, the last
    [-s] gives the size, and [-t] and [-m] set their flags. *)
Lemma getopt_loop_accepts env os : forall g h t w,
  0 <= g <= 128 ->
  Forall (fun opt => accepts env opt = true) os ->
  getopt_loop env os (mkConfig (g * 2 ^ 30) (g * 2 ^ 27) h t) w
  = (Next (mkConfig (selected_GiB os g * 2 ^ 30) (selected_GiB os g * 2 ^ 27)
                    (h || existsb is_t os) (t || existsb is_m os)), w)
  /\ 0 <= selected_GiB os g <= 128.
Proof.
  induction os as [|opt os IH]; intros g h t w Hg Hall.
  - cbn. rewrite !orb_false_r. split; [reflexivity|exact Hg].
  - inversion Hall as [|? ? Hopt Hall']; subst.
    cbn [getopt_loop]. unfold bind.
    destruct opt as [| | |num trailing|]; try discriminate Hopt;
      cbn [accepts] in Hopt; cbn [handle_option arraySize endIdx hugetlb thp].
    + rewrite Hopt. cbn [ret].
      destruct (IH g h true w Hg Hall') as [-> Hr].
      cbn [selected_GiB existsb is_t is_m]. rewrite orb_false_l, orb_true_r.
      split; [reflexivity|exact Hr].
    + cbn [ret]. destruct (IH g true t w Hg Hall') as [-> Hr].
      cbn [selected_GiB existsb is_t is_m]. rewrite orb_false_l, orb_true_r.
      split; [reflexivity|exact Hr].
    + apply negb_true_iff in Hopt. rewrite Hopt. cbn [ret].
      apply orb_false_iff in Hopt as [_ Hnum]. apply Z.ltb_ge in Hnum.
      assert (Word.wrap (Z.of_N num * 1024 * 1024 * 1024)
              = Z.of_N num * 2 ^ 30) as ->.
      { rewrite wrap_small; [lia|]. unfold Word.u64, Word.ULONG_MODULUS. lia. }
      assert (Z.of_N num * 2 ^ 30 / sizeof_double = Z.of_N num * 2 ^ 27) as ->.
      { unfold sizeof_double.
        replace (Z.of_N num * 2 ^ 30) with (Z.of_N num * 2 ^ 27 * 8) by lia.
        apply Z.div_mul. lia. }
      destruct (IH (Z.of_N num) h t w) as [-> Hr]; [lia|exact Hall'|].
      cbn [selected_GiB existsb is_t is_m]. rewrite !orb_false_l.
      split; [reflexivity|exact Hr].
Qed.

Lemma getopt_loop_selected env os w :
  Forall (fun opt => accepts env opt = true) os ->
  getopt_loop env os initial_config w = (Next (selected_config os), w)
  /\ 0 <= selected_GiB os 32 <= 128.
Proof.
  intros Hall.
  change initial_config with (mkConfig (32 * 2 ^ 30) (32 * 2 ^ 27) false false).
  apply (getopt_loop_accepts env os 32 false false w); [lia|exact Hall].
Qed.

(** The option loop up to the first option it does not go on after. *)
Lemma getopt_loop_prefix env pre : forall c w,
  Forall (fun opt => accepts env opt = true) pre ->
  exists c', forall rest,
    getopt_loop env (pre ++ rest) c w = getopt_loop env rest c' w.
Proof.
  induction pre as [|opt pre IH]; intros c w Hall.
  - exists c. reflexivity.
  - inversion Hall as [|? ? Hopt Hall']; subst.
    assert (exists c1, handle_option env opt c w = (Next c1, w)) as [c1 H1].
    { destruct opt as [| | |num trailing|]; try discriminate Hopt;
        cbn [accepts] in Hopt; cbn [handle_option].
      - rewrite Hopt. eexists. reflexivity.
      - eexists. reflexivity.
      - apply negb_true_iff in Hopt. rewrite Hopt. eexists. reflexivity. }
    destruct (IH c1 w Hall') as [c' Hc'].
    exists c'. intros rest. cbn [app getopt_loop]. unfold bind at 1.
    rewrite H1. apply Hc'.
Qed.

(** What [handle_option] does with an option it does not go on after. *)
Lemma handle_option_refused env opt c w :
  accepts env opt = false ->
  handle_option env opt c w
  = (Exit 1, say (if is_m opt then ThpNotEnabled else UsageText) w).
Proof.
  destruct opt as [| | |num trailing|]; cbn [accepts handle_option is_m];
    intros H; try discriminate H; try reflexivity.
  - rewrite H. reflexivity.
  - apply negb_false_iff in H. rewrite H. reflexivity.
Qed.

Lemma find_refused_split env os opt :
  first_refused env os = Some opt ->
  exists pre post,
    os = pre ++ opt :: post
    /\ Forall (fun o => accepts env o = true) pre
    /\ accepts env opt = false.
Proof.
  unfold first_refused. induction os as [|o os IH]; [discriminate|].
  cbn [List.find]. destruct (accepts env o) eqn:Ho; cbn [negb].
  - intros H. destruct (IH H) as (pre & post & -> & Hpre & Hopt).
    exists (o :: pre), post. split; [reflexivity|].
    split; [constructor; assumption|exact Hopt].
  - intros H. injection H as <-. exists [], os.
    split; [reflexivity|]. split; [constructor|exact Ho].
Qed.

Lemma find_refused_none env os :
  first_refused env os = None ->
  Forall (fun o => accepts env o = true) os.
Proof.
  unfold first_refused. induction os as [|o os IH]; [constructor|].
  cbn [List.find]. destruct (accepts env o) eqn:Ho; cbn [negb].
  - intros H. constructor; [exact Ho|exact (IH H)].
  - discriminate.
Qed.

(** The array part when the mapping fails. *)
Lemma benchmark_no_memory env c indices w :
  mmap_succeeds env (arraySize c) (hugetlb c) = false ->
  benchmark env c indices w
  = (Exit 1,
     say_all ([Mmap (arraySize c) (hugetlb c) false; CannotAllocate]
              ++ (if hugetlb c then [HugetlbHint] else [])) w).
Proof.
  intros Hm. unfold benchmark, bind, sys_mmap. rewrite Hm.
  destruct (hugetlb c); unfold emit, ret, exit, say, say_all; cbn;
    rewrite <- !app_assoc; reflexivity.
Qed.

(** [main] when the option loop comes to an option it does not go on
    after. *)
Lemma main_refused env args w pre opt post :
  opts args = pre ++ opt :: post ->
  Forall (fun o => accepts env o = true) pre ->
  accepts env opt = false ->
  main env args w
  = (Exit 1, say (if is_m opt then ThpNotEnabled else UsageText) w).
Proof.
  intros Hopts Hpre Hopt. unfold main. unfold bind at 1. rewrite Hopts.
  destruct (getopt_loop_prefix env pre initial_config w Hpre) as [c' ->].
  cbn [getopt_loop]. unfold bind at 1.
  rewrite handle_option_refused by exact Hopt. reflexivity.
Qed.

(** [main] after options that are all accepted: the test of the request,
    then the load of the indices, then the array part. *)
Lemma main_accepted env args w :
  Forall (fun o => accepts env o = true) (opts args) ->
  main env args w
  = if (existsb is_t (opts args) && existsb is_m (opts args))
       || operands args
    then (Exit 1, say UsageText w)
    else
      let c := selected_config (opts args) in
      let '(ok, indices, w2) :=
        readIndices [] (endIdx c) (three_percent (endIdx c))
                    (say GettingIndices w) in
      if ok then benchmark env c indices w2
      else (Exit 1, say CantGetIndices w2).
Proof.
  intros Hall.
  destruct (getopt_loop_selected env (opts args) w Hall) as [Hloop Hg].
  unfold main. unfold bind at 1. rewrite Hloop.
  unfold bind at 1.
  change (hugetlb (selected_config (opts args)))
    with (existsb is_t (opts args)).
  change (thp (selected_config (opts args))) with (existsb is_m (opts args)).
  destruct ((existsb is_t (opts args) && existsb is_m (opts args))
            || operands args); [reflexivity|].
  cbn [ret]. unfold bind at 1.
  assert (requested_count (endIdx (selected_config (opts args)))
          = Some (three_percent (endIdx (selected_config (opts args)))))
    as -> by (apply requested_count_GiB; exact Hg).
  cbn [lift]. unfold bind at 1. cbn [emit]. unfold bind at 1.
  unfold call_readIndices. cbn zeta.
  destruct (readIndices [] (endIdx (selected_config (opts args)))
              (three_percent (endIdx (selected_config (opts args))))
              (say GettingIndices w)) as [[ok indices] w2].
  cbn [fst snd]. destruct ok; reflexivity.
Qed.


(** The configuration that accepted options select is one of an array of
    a whole number of GiB. *)
Lemma selected_config_sizes os :
  0 <= selected_GiB os 32 <= 128 ->
  Word.u64 (endIdx (selected_config os))
  /\ 0 <= endIdx (selected_config os)
  /\ endIdx (selected_config os)
     = arraySize (selected_config os) / sizeof_double
  /\ (endIdx (selected_config os) = 0 ->
      three_percent (endIdx (selected_config os)) = 0).
Proof.
  intros Hg. cbn [selected_config endIdx arraySize].
  split; [unfold Word.u64, Word.ULONG_MODULUS; lia|]. split; [lia|].
  split.
  - unfold sizeof_double.
    replace (selected_GiB os 32 * 2 ^ 30)
      with (selected_GiB os 32 * 2 ^ 27 * 8) by lia.
    symmetry. apply Z.div_mul. lia.
  - intros ->. reflexivity.
Qed.

(** * Further properties of the runner *)

(** X11.  The option loop as a whole: it stops at the first option it
    does not go on after, with status 1 and one line of output, the
    explanation for [-m] and the usage text otherwise; when there is none
    it prints nothing, the last [-s] gives the array size, and [-t] and
    [-m] set their flags. *)
Theorem option_loop_outcome env os w :
  getopt_loop env os initial_config w
  = match first_refused env os with
    | None => (Next (selected_config os), w)
    | Some opt =>
        (Exit 1, say (if is_m opt then ThpNotEnabled else UsageText) w)
    end.
Proof.
  destruct (first_refused env os) as [opt|] eqn:Hfirst.
  - destruct (find_refused_split env os opt Hfirst)
      as (pre & post & -> & Hpre & Hopt).
    destruct (getopt_loop_prefix env pre initial_config w Hpre) as [c' ->].
    cbn [getopt_loop]. unfold bind.
    rewrite handle_option_refused by exact Hopt. reflexivity.
  - apply getopt_loop_selected, find_refused_none, Hfirst.
Qed.

(** X12.  A request for both huge-page modes, or a command line with
    operands, is refused once the options are read: [main] prints the
    usage text and leaves with status 1, before the index file is touched
    and before anything is mapped. *)
Theorem conflicting_request_refused env args w :
  Forall (fun o => accepts env o = true) (opts args) ->
  (In OptT (opts args) /\ In OptM (opts args)) \/ operands args = true ->
  main env args w = (Exit 1, say UsageText w).
Proof.
  intros Hall Hbad. rewrite main_accepted by exact Hall.
  assert ((existsb is_t (opts args) && existsb is_m (opts args))
          || operands args = true) as ->; [|reflexivity].
  destruct Hbad as [[Ht Hm] | ->]; [|apply orb_true_r].
  apply orb_true_iff. left. apply andb_true_iff.
  split; apply existsb_exists.
  - exists OptT. split; [exact Ht|reflexivity].
  - exists OptM. split; [exact Hm|reflexivity].
Qed.

Lemma conflicting_request_refused_witness :
  main (mkEnv (Some (line "always [madvise] never")) (fun _ _ => true) true)
       (mkArgs [OptM; OptS 1 false; OptT] false)
       (mkWorld None true Z.of_nat [])
  = (Exit 1, say UsageText (mkWorld None true Z.of_nat [])).
Proof.
  apply conflicting_request_refused.
  - repeat constructor.
  - left. cbn. tauto.
Defined.

(** X13.  An option that the loop does not go on after ends the run on
    the spot: [-h], an unknown option, a size above 128 GiB or with text
    after the number give the usage text, [-m] with transparent huge
    pages not enabled gives the explanation; the status is 1 and nothing
    else is done, whatever options follow. *)
Theorem refused_option_ends_run env args w pre opt post :
  opts args = pre ++ opt :: post ->
  Forall (fun o => accepts env o = true) pre ->
  accepts env opt = false ->
  main env args w
  = (Exit 1, say (if is_m opt then ThpNotEnabled else UsageText) w)
  /\ (rejected opt = true ->
      main env args w = (Exit 1, say UsageText w)).
Proof.
  intros Hopts Hpre Hopt.
  pose proof (main_refused env args w pre opt post Hopts Hpre Hopt) as H.
  split; [exact H|]. intros Hrej. rewrite H.
  destruct opt; try discriminate Hrej; reflexivity.
Qed.

Lemma refused_option_ends_run_witness :
  let env := mkEnv (Some (line "always madvise [never]")) (fun _ _ => true)
                   true in
  let args := mkArgs [OptT; OptS 129 false; OptM] false in
  let w := mkWorld None true Z.of_nat [] in
  main env args w
  = (Exit 1, say (if is_m (OptS 129 false) then ThpNotEnabled
                  else UsageText) w)
  /\ (rejected (OptS 129 false) = true ->
      main env args w = (Exit 1, say UsageText w)).
Proof.
  cbn zeta.
  apply (refused_option_ends_run _ _ _ [OptT] (OptS 129 false) [OptM]).
  - reflexivity.
  - repeat constructor.
  - reflexivity.
Defined.

(** X14.  When the index file can be opened neither for reading nor for
    writing, a run with an accepted request prints that it cannot get the
    indices and leaves with status 1; nothing is mapped. *)
Theorem no_index_file_ends_run env args w :
  Forall (fun o => accepts env o = true) (opts args) ->
  existsb is_t (opts args) && existsb is_m (opts args) = false ->
  operands args = false ->
  idx_file w = None -> idx_writable w = false ->
  main env args w
  = (Exit 1,
     say CantGetIndices (say CantOpenForWriting (say GettingIndices w))).
Proof.
  intros Hall Hmodes Hops Hf Hw.
  rewrite main_accepted by exact Hall. rewrite Hmodes, Hops.
  cbn [orb]. cbn zeta. unfold readIndices. cbn [say idx_file]. rewrite Hf.
  rewrite generateIndices_readonly by exact Hw. reflexivity.
Qed.

Lemma no_index_file_ends_run_witness :
  let w := mkWorld None false Z.of_nat [] in
  main (mkEnv None (fun _ _ => true) true) (mkArgs [OptT] false) w
  = (Exit 1,
     say CantGetIndices (say CantOpenForWriting (say GettingIndices w))).
Proof.
  cbn zeta. apply no_index_file_ends_run; try reflexivity.
  repeat constructor.
Defined.

(** X15.  The forms of a run in which every allocation is granted, in
    terms of what [main] and the functions it calls print themselves and
    ask of the memory manager.  Such a run ends with a status, and it is
    one of six: the usage text or the explanation about transparent huge
    pages alone, status 1; after the load of the indices, a failed load,
    a failed mapping (with the hint exactly when the huge-page pool was
    asked for) or a refused advice, status 1; or the complete run, status
    0.  Memory is mapped at most once, only after the indices are loaded;
    it is unmapped only at the end of the complete run; and the status is
    0 for the complete run alone. *)
Theorem main_run_shape env args w :
  exists status tr w',
    main env args w = (Exit status, w')
    /\ printed w' = printed w ++ tr
    /\ run_shape status tr.
Proof.
  destruct (first_refused env (opts args)) as [opt|] eqn:Hfirst.
  - destruct (find_refused_split env _ opt Hfirst)
      as (pre & post & Hopts & Hpre & Hopt).
    rewrite (main_refused env args w pre opt post Hopts Hpre Hopt).
    exists 1. eexists. eexists. split; [reflexivity|].
    split; [reflexivity|]. destruct (is_m opt); constructor.
  - apply find_refused_none in Hfirst.
    rewrite main_accepted by exact Hfirst.
    destruct (getopt_loop_selected env (opts args) w Hfirst) as [_ Hg].
    destruct (selected_config_sizes (opts args) Hg) as (Hu & Hend & Hsize & H0).
    destruct ((existsb is_t (opts args) && existsb is_m (opts args))
              || operands args).
    { exists 1. eexists. eexists. split; [reflexivity|].
      split; [reflexivity|]. constructor. }
    cbn zeta. set (c := selected_config (opts args)) in *.
    destruct (readIndices_printed (endIdx c) (three_percent (endIdx c))
                                  (say GettingIndices w)) as (ms & Hpr & Hms).
    destruct (readIndices [] (endIdx c) (three_percent (endIdx c))
                          (say GettingIndices w))
      as [[ok indices] w2] eqn:Hr.
    cbn [snd say printed] in Hpr. rewrite <- app_assoc in Hpr.
    cbn [app] in Hpr.
    destruct ok.
    + pose proof (readIndices_in_range _ _ _ _ _ Hu H0 Hr) as Hin.
      destruct (mmap_succeeds env (arraySize c) (hugetlb c)) eqn:Hm.
      * assert (thp c = true /\ madvise_succeeds env = false
                \/ (thp c = true -> madvise_succeeds env = true))
          as [[Ht Ha]|Ha].
        { destruct (thp c), (madvise_succeeds env); auto. }
        -- rewrite benchmark_advice_refused by assumption.
           exists 1. eexists. eexists. split; [reflexivity|].
           cbn [say_all printed]. rewrite Hpr, <- app_assoc. cbn [app].
           split; [reflexivity|]. constructor. exact Hms.
        -- rewrite benchmark_completes by assumption.
           exists 0. eexists. eexists. split; [reflexivity|].
           cbn [say_all printed]. rewrite Hpr, <- app_assoc. cbn [app].
           split; [reflexivity|].
           apply (shape_complete ms c). exact Hms.
      * rewrite benchmark_no_memory by exact Hm.
        exists 1. eexists. eexists. split; [reflexivity|].
        cbn [say_all printed]. rewrite Hpr, <- app_assoc. cbn [app].
        split; [reflexivity|]. constructor. exact Hms.
    + exists 1. eexists. eexists. split; [reflexivity|].
      cbn [say printed]. rewrite Hpr, <- app_assoc. cbn [app].
      split; [reflexivity|]. constructor. exact Hms.
Qed.



(** X17.  The values of the arena.  Whatever the index, the value the
    initialization stores is a double between 0 and [1e-7]; it is 0
    exactly at the multiples of 79, and the values repeat with period
    79. *)
Theorem arena_values_small i :
  SFleb Double.zero (init_value i) = true
  /\ SFleb (init_value i) (Double.literal 1 (10 ^ 7)) = true
  /\ (init_value i = Double.zero <-> i mod 79 = 0)
  /\ init_value (i + 79) = init_value i.
Proof.
  assert (forallb (fun r =>
            let v := Double.mul (Double.literal 1 (10 ^ 9))
                                (Double.of_Z (Z.of_nat r)) in
            SFleb Double.zero v && SFleb v (Double.literal 1 (10 ^ 7))
            && Bool.eqb (SFeqb v Double.zero) (Z.of_nat r =? 0))
            (seq 0 79) = true) as Hall by (vm_compute; reflexivity).
  rewrite forallb_forall in Hall.
  pose proof (Z.mod_pos_bound i 79 eq_refl) as Hr.
  specialize (Hall (Z.to_nat (i mod 79))).
  rewrite Z2Nat.id in Hall by lia.
  assert (In (Z.to_nat (i mod 79)) (seq 0 79)) as Hin by (apply in_seq; lia).
  specialize (Hall Hin). cbn zeta in Hall.
  apply andb_true_iff in Hall as [Hall Hzero].
  apply andb_true_iff in Hall as [Hlo Hhi].
  unfold init_value.
  split; [exact Hlo|]. split; [exact Hhi|]. split.
  - apply Bool.eqb_prop in Hzero. split.
    + intros Hv. rewrite Hv in Hzero. apply Z.eqb_eq. rewrite <- Hzero.
      reflexivity.
    + intros Hz. rewrite Hz. reflexivity.
  - rewrite <- (Z.mul_1_l 79) at 1. rewrite Z_mod_plus_full. reflexivity.
Qed.

Lemma max_seen_snoc m l x : Z.max (max_seen m l) x = max_seen m (l ++ [x]).
Proof. unfold max_seen. rewrite fold_left_app. reflexivity. Qed.

(** X18.  A cache written for a smaller array is not reused: a file of
    printed indices below [written], loaded with a bound of
    [written + 10,000,000] or more, is regenerated whatever the count. *)
Theorem smaller_array_cache_regenerated w written bound count l :
  1 <= written -> written + 10000000 <= bound < Word.ULONG_MODULUS ->
  0 <= count ->
  well_formed written l ->
  idx_file w = Some (index_file l) ->
  readIndices [] bound count w
  = generateIndices [] bound count
      (say InvalidFileRegenerating (say_all [] w)).
Proof.
  intros Hw Hb Hc Hall Hf.
  assert (well_formed bound l) as Hall2.
  { eapply Forall_impl; [exact Hall|]. cbn. intros. lia. }
  assert (forall l', Forall (fun x => 0 <= x <= written - 1) l' ->
                     forall indices,
                       stale bound count
                             (mkReading indices (max_seen 0 l') []) = true)
    as Hstale.
  { intros l' Hl' indices. unfold stale. apply orb_true_iff. left.
    cbn [rd_maxIdx].
    assert (0 <= max_seen 0 l' <= written - 1) as Hmax
      by (apply max_seen_bounds; [lia|exact Hl']).
    rewrite wrap_small by (unfold Word.u64; lia).
    apply Z.ltb_lt. lia. }
  assert (Forall (fun x => 0 <= x <= written - 1) l) as Hl.
  { eapply Forall_impl; [exact Hall|]. cbn. intros. lia. }
  unfold readIndices. rewrite Hf.
  destruct (Z_le_dec (Z.of_nat (length l)) count) as [Hle|Hgt].
  - rewrite read_loop_index_file; cbn [rd_indices rd_maxIdx rd_printed app].
    + rewrite (Hstale l Hl). reflexivity.
    + exact Hall2.
    + cbn [length]. lia.
    + lia.
  - pose proof (take_drop (Z.to_nat count) l) as Hsplit.
    destruct (drop (Z.to_nat count) l) as [|x l2] eqn:Hdrop.
    { apply (f_equal length) in Hdrop. rewrite length_drop in Hdrop.
      cbn in Hdrop. lia. }
    assert (Z.of_nat (length (take (Z.to_nat count) l)) = count) as Htake
      by (rewrite length_take; lia).
    rewrite <- Hsplit in Hall2, Hl |- *.
    rewrite (read_loop_too_big bound count _ x l2 Hall2 Htake).
    apply Forall_app in Hl as [Hl1 Hl2].
    inversion Hl2 as [|? ? Hx _]; subst.
    rewrite max_seen_snoc, Hstale; [reflexivity|].
    apply Forall_app. split; [exact Hl1|]. constructor; [exact Hx|constructor].
Qed.

Lemma smaller_array_cache_regenerated_witness :
  let w := mkWorld (Some (index_file [999; 0])) true Z.of_nat [] in
  readIndices [] 10001000 2 w
  = generateIndices [] 10001000 2
      (say InvalidFileRegenerating (say_all [] w)).
Proof.
  cbn zeta.
  apply (smaller_array_cache_regenerated _ 1000 10001000 2 [999; 0]).
  - lia.
  - unfold Word.ULONG_MODULUS. lia.
  - lia.
  - repeat constructor; unfold Word.LONG_MAX; lia.
  - reflexivity.
Defined.
